(** * tldraw canvas bridge: shape normalisation and request correlation

    A shallow embedding of the two programs that make up the bridge:

    - [Canvas]: the renderer-side executor of [src/useCanvasBridge.ts]
      ([createShape], [handleCommand]);
    - [Bridge]: the correlation core of [mcp-server/index.js]
      ([sendToCanvas] and the WebSocket [connection] / [message] / [close]
      handlers together with the 10 s timeout callback).

    JavaScript numbers that carry geometry are IEEE-754 doubles and are
    modelled by Rocq's primitive binary64 floats, so [x - width / 2] below is
    the very operation the renderer performs. *)

From Stdlib Require Import PrimFloat ZArith.
From stdpp Require Import gmap strings list.

(** ** Shared JavaScript idioms *)

(** [a ?? b]: the nullish-coalescing operator.  [None] stands for both
    [undefined] and [null]. *)
Definition nullish {A : Type} (o : option A) (d : A) : A :=
  match o with
  | Some v => v
  | None => d
  end.

Notation "o ?? d" := (nullish o d) (at level 45, left associativity).

(** What evaluating a piece of JavaScript can do: return or throw. *)
Inductive Completion (A : Type) : Type :=
| Returned (a : A)
| Thrown (e : string).

Arguments Returned {A} a.
Arguments Thrown {A} e.

(** * The renderer-side executor ([src/useCanvasBridge.ts]) *)

Module Canvas.

Local Open Scope string_scope.

(** *** Caller-supplied shape descriptors *)

(** A point of a freehand path: [{x, y, z?}]. *)
Record Point := {
  pt_x : float;
  pt_y : float;
  pt_z : option float
}.

Inductive SegmentType := free | straight.

(** An element of [params.segments]. *)
Record Segment := {
  seg_type : SegmentType;
  seg_points : list Point
}.

(** The fields [createShape] reads from [params].  The types are those of
    the [as] annotations in the source; an optional field that is [undefined]
    or [null] is [None].  A descriptor without [kind] behaves exactly like one
    whose kind is the string ["undefined"] (the switch falls to [default] and
    the template literal prints [undefined]). *)
Record Params := {
  p_kind : string;
  p_x : float;
  p_y : float;
  p_width : option float;
  p_height : option float;
  p_text : option string;
  p_endX : option float;
  p_endY : option float;
  p_points : option (list Point);
  p_segments : option (list Segment);
  p_color : option string;
  p_size : option string;
  p_isClosed : option bool;
  p_fill : option string
}.

(** *** Renderer-native shape records ([TLShapePartial]) *)

Definition ShapeId := nat.

(** [toRichText] is tldraw's; it is kept as a constructor. *)
Inductive RichText := toRichText (s : string).

Record Vec := { v_x : float; v_y : float }.

Record VecZ := { vz_x : float; vz_y : float; vz_z : float }.

Record LinePoint := {
  lp_id : string;
  lp_index : string;
  lp_x : float;
  lp_y : float
}.

Record DrawSegment := {
  ds_type : SegmentType;
  ds_points : list VecZ
}.

Inductive ShapeProps :=
| GeoProps (geo : string) (w h : float)
| RichTextProps (richText : RichText)
| ArrowProps (start end_ : Vec)
| LineProps (a1 a2 : LinePoint)
| DrawProps (segments : list DrawSegment) (color size fill dash : string)
            (isComplete isClosed isPen : bool) (scale : float).

Record Shape := {
  s_id : ShapeId;
  s_type : string;
  s_x : float;
  s_y : float;
  s_props : ShapeProps
}.

(** *** The tldraw editor, as far as the executor uses it

    The editor is an external collaborator.  It is modelled by the current
    page's shapes, the selection, a source of fresh shape ids and a history of
    page snapshots.  [createShapeId] draws a fresh id; [createShape] adds a
    shape to the page; [deleteShapes] removes the shapes with the given
    ids. *)
Record Editor := {
  pageShapes : list Shape;
  selectedIds : list ShapeId;
  idSeed : nat;
  undoStack : list (list Shape);
  redoStack : list (list Shape)
}.

Definition emptyEditor : Editor :=
  {| pageShapes := []; selectedIds := []; idSeed := 0;
     undoStack := []; redoStack := [] |}.

Definition createShapeId (e : Editor) : ShapeId * Editor :=
  (idSeed e,
   {| pageShapes := pageShapes e; selectedIds := selectedIds e;
      idSeed := S (idSeed e);
      undoStack := undoStack e; redoStack := redoStack e |}).

Definition withPage (e : Editor) (page : list Shape) (sel : list ShapeId) : Editor :=
  {| pageShapes := page; selectedIds := sel; idSeed := idSeed e;
     undoStack := pageShapes e :: undoStack e; redoStack := [] |}.

Definition editor_createShape (e : Editor) (sh : Shape) : Editor :=
  withPage e (pageShapes e ++ [sh]) (selectedIds e).

Definition getCurrentPageShapes (e : Editor) : list Shape := pageShapes e.

Definition mem_id (i : ShapeId) (ids : list ShapeId) : bool :=
  existsb (Nat.eqb i) ids.

Definition getSelectedShapes (e : Editor) : list Shape :=
  List.filter (fun sh => mem_id (s_id sh) (selectedIds e)) (pageShapes e).

Definition deleteShapes (e : Editor) (ids : list ShapeId) : Editor :=
  withPage e
    (List.filter (fun sh => negb (mem_id (s_id sh) ids)) (pageShapes e))
    (List.filter (fun i => negb (mem_id i ids)) (selectedIds e)).

Definition editor_undo (e : Editor) : Editor :=
  match undoStack e with
  | [] => e
  | page :: older =>
      {| pageShapes := page; selectedIds := selectedIds e; idSeed := idSeed e;
         undoStack := older; redoStack := pageShapes e :: redoStack e |}
  end.

Definition editor_redo (e : Editor) : Editor :=
  match redoStack e with
  | [] => e
  | page :: newer =>
      {| pageShapes := page; selectedIds := selectedIds e; idSeed := idSeed e;
         undoStack := pageShapes e :: undoStack e; redoStack := newer |}
  end.

(** Zooming moves the camera only. *)
Definition editor_zoomToFit (e : Editor) : Editor := e.

(** *** [createShape] *)

(** What [createShape] returns: [{ success: true, shapeId }] or
    [{ error }]. *)
Inductive CreateResult :=
| Created (shapeId : ShapeId)
| CreateError (error : string).

(** [p => ({ x: p.x, y: p.y, z: p.z ?? 0.5 })] *)
Definition withPressure (p : Point) : VecZ :=
  {| vz_x := pt_x p; vz_y := pt_y p; vz_z := pt_z p ?? 0.5%float |}.

(** [seg => ({ type: seg.type, points: seg.points.map(...) })] *)
Definition convertSegment (seg : Segment) : DrawSegment :=
  {| ds_type := seg_type seg; ds_points := map withPressure (seg_points seg) |}.

(** The geo shapes all build the same record; [h] is the height that goes
    into both the anchor and the props (for [circle] the source passes
    [width]). *)
Definition geoShape (shapeId : ShapeId) (geo : string) (x y width h : float) : Shape :=
  {| s_id := shapeId; s_type := "geo";
     s_x := PrimFloat.sub x (PrimFloat.div width 2%float);
     s_y := PrimFloat.sub y (PrimFloat.div h 2%float);
     s_props := GeoProps geo width h |}.

(** The [switch (kind)] of [createShape]: either [shapePartial] is assigned
    (left) or the function returns an error object early (right). *)
Definition shapePartial (shapeId : ShapeId) (params : Params) : Shape + string :=
  let kind := p_kind params in
  let x := p_x params in
  let y := p_y params in
  let width := p_width params ?? 100%float in
  let height := p_height params ?? 100%float in
  let text := p_text params in
  let endX := p_endX params in
  let endY := p_endY params in
  if String.eqb kind "rectangle" then inl (geoShape shapeId "rectangle" x y width height)
  else if String.eqb kind "circle" then inl (geoShape shapeId "ellipse" x y width width)
  else if String.eqb kind "ellipse" then inl (geoShape shapeId "ellipse" x y width height)
  else if String.eqb kind "triangle" then inl (geoShape shapeId "triangle" x y width height)
  else if String.eqb kind "star" then inl (geoShape shapeId "star" x y width height)
  else if String.eqb kind "diamond" then inl (geoShape shapeId "diamond" x y width height)
  else if String.eqb kind "hexagon" then inl (geoShape shapeId "hexagon" x y width height)
  else if String.eqb kind "cloud" then inl (geoShape shapeId "cloud" x y width height)
  else if String.eqb kind "text" then
    inl {| s_id := shapeId; s_type := "text"; s_x := x; s_y := y;
           s_props := RichTextProps (toRichText (text ?? "Text")) |}
  else if String.eqb kind "note" then
    inl {| s_id := shapeId; s_type := "note";
           s_x := PrimFloat.sub x (PrimFloat.div width 2%float);
           s_y := PrimFloat.sub y (PrimFloat.div height 2%float);
           s_props := RichTextProps (toRichText (text ?? "Note")) |}
  else if String.eqb kind "arrow" then
    inl {| s_id := shapeId; s_type := "arrow"; s_x := x; s_y := y;
           s_props :=
             ArrowProps {| v_x := 0%float; v_y := 0%float |}
                        {| v_x := endX ?? 100%float; v_y := endY ?? 0%float |} |}
  else if String.eqb kind "line" then
    inl {| s_id := shapeId; s_type := "line"; s_x := x; s_y := y;
           s_props :=
             LineProps
               {| lp_id := "a1"; lp_index := "a1"; lp_x := 0%float; lp_y := 0%float |}
               {| lp_id := "a2"; lp_index := "a2";
                  lp_x := endX ?? 100%float; lp_y := endY ?? 0%float |} |}
  else if String.eqb kind "draw" || String.eqb kind "freehand" then
    let points := p_points params in
    let segments := p_segments params in
    let color := p_color params ?? "black" in
    let size := p_size params ?? "m" in
    let isClosed := p_isClosed params ?? false in
    let fill := p_fill params ?? "none" in
    let drawShape (drawSegments : list DrawSegment) : Shape :=
      {| s_id := shapeId; s_type := "draw"; s_x := x; s_y := y;
         s_props := DrawProps drawSegments color size fill "draw"
                              true isClosed false 1%float |} in
    match segments with
    | Some segments => inl (drawShape (map convertSegment segments))
    | None =>
        match points with
        | Some points =>
            inl (drawShape [ {| ds_type := free; ds_points := map withPressure points |} ])
        | None => inr "Draw shape requires points or segments"
        end
    end
  else inr ("Unknown shape kind: " ++ kind).

(** [createShape(editor, params)]: a shape id is drawn first, whatever
    the kind; the shape is handed to the editor only when the switch did not
    return. *)
Definition createShape (editor : Editor) (params : Params) : Editor * CreateResult :=
  let '(shapeId, editor) := createShapeId editor in
  match shapePartial shapeId params with
  | inl shape => (editor_createShape editor shape, Created shapeId)
  | inr error => (editor, CreateError error)
  end.

(** *** [handleCommand] *)

(** The [params] of a command: the descriptor fields of the object itself,
    which [create_shape] reads, and its [shapes] property, which
    [create_shapes] reads. *)
Record CommandParams := {
  cp_shape : Params;
  cp_shapes : option (list Params)
}.

Record CanvasCommand := {
  cmd_id : Z;
  cmd_command : string;
  cmd_params : CommandParams
}.

Inductive CommandResult :=
| ShapeResult (r : CreateResult)
| BatchResult (count : nat) (results : list CreateResult)
| DeletedResult (deletedCount : nat)
| ShapeList (shapes : list Shape)
| Success
| CommandError (error : string).

(** [shapes.map(shape => createShape(editor, shape))]: the editor is
    threaded through the calls from left to right. *)
Fixpoint createEach (editor : Editor) (shapes : list Params) : Editor * list CreateResult :=
  match shapes with
  | [] => (editor, [])
  | shape :: rest =>
      let '(editor, r) := createShape editor shape in
      let '(editor, rs) := createEach editor rest in
      (editor, r :: rs)
  end.

(** [handleCommand(editor, command)].  [shapes.map] on a missing [shapes]
    throws a TypeError, which the caller's [try] catches. *)
Definition handleCommand (editor : Editor) (command : CanvasCommand)
  : Editor * Completion CommandResult :=
  let cmd := cmd_command command in
  let params := cmd_params command in
  if String.eqb cmd "create_shape" then
    let '(editor, r) := createShape editor (cp_shape params) in
    (editor, Returned (ShapeResult r))
  else if String.eqb cmd "create_shapes" then
    match cp_shapes params with
    | None => (editor, Thrown "TypeError")
    | Some shapes =>
        let '(editor, results) := createEach editor shapes in
        (editor, Returned (BatchResult (length shapes) results))
    end
  else if String.eqb cmd "clear" then
    let shapes := getCurrentPageShapes editor in
    let editor :=
      if Nat.ltb 0 (length shapes) then deleteShapes editor (map s_id shapes) else editor in
    (editor, Returned (DeletedResult (length shapes)))
  else if String.eqb cmd "get_shapes" then
    (editor, Returned (ShapeList (getCurrentPageShapes editor)))
  else if String.eqb cmd "undo" then (editor_undo editor, Returned Success)
  else if String.eqb cmd "redo" then (editor_redo editor, Returned Success)
  else if String.eqb cmd "zoom_to_fit" then (editor_zoomToFit editor, Returned Success)
  else if String.eqb cmd "delete_selected" then
    let selected := getSelectedShapes editor in
    let editor :=
      if Nat.ltb 0 (length selected) then deleteShapes editor (map s_id selected) else editor in
    (editor, Returned (DeletedResult (length selected)))
  else (editor, Returned (CommandError ("Unknown command: " ++ cmd))).

(** *** Vocabulary for the statements *)

(** The kinds the tool schema of [mcp-server/index.js] enumerates; they are
    exactly the [case] labels of [createShape]. *)
Definition kind_enum : list string :=
  ["rectangle"; "circle"; "ellipse"; "triangle"; "star"; "diamond"; "hexagon";
   "cloud"; "arrow"; "line"; "text"; "note"; "draw"; "freehand"].

(** The geo kinds that use both [width] and [height]. *)
Definition box_like : list string :=
  ["rectangle"; "ellipse"; "triangle"; "star"; "diamond"; "hexagon"; "cloud"].

(** [createShape] handed [shape] to the editor and reported success. *)
Definition creates (editor : Editor) (params : Params) (shape : Shape) : Prop :=
  createShape editor params =
    (editor_createShape (snd (createShapeId editor)) shape,
     Created (fst (createShapeId editor))).

(** [createShape] returned [{ error }] and created nothing. *)
Definition rejects (editor : Editor) (params : Params) (error : string) : Prop :=
  createShape editor params = (snd (createShapeId editor), CreateError error).

(** A descriptor the switch accepts: a known kind, and path data for the
    path kinds. *)
Definition valid (params : Params) : Prop :=
  In (p_kind params) kind_enum /\
  (p_kind params = "draw" \/ p_kind params = "freehand" ->
   p_points params <> None \/ p_segments params <> None).


(** *** Descriptors used as running examples *)

Definition descriptor (kind : string) (x y : float) : Params :=
  {| p_kind := kind; p_x := x; p_y := y; p_width := None; p_height := None;
     p_text := None; p_endX := None; p_endY := None; p_points := None;
     p_segments := None; p_color := None; p_size := None; p_isClosed := None;
     p_fill := None |}.

Definition sized (params : Params) (width height : option float) : Params :=
  {| p_kind := p_kind params; p_x := p_x params; p_y := p_y params;
     p_width := width; p_height := height;
     p_text := p_text params; p_endX := p_endX params; p_endY := p_endY params;
     p_points := p_points params; p_segments := p_segments params;
     p_color := p_color params; p_size := p_size params;
     p_isClosed := p_isClosed params; p_fill := p_fill params |}.

Definition withPoints (params : Params) (points : list Point) : Params :=
  {| p_kind := p_kind params; p_x := p_x params; p_y := p_y params;
     p_width := p_width params; p_height := p_height params;
     p_text := p_text params; p_endX := p_endX params; p_endY := p_endY params;
     p_points := Some points; p_segments := p_segments params;
     p_color := p_color params; p_size := p_size params;
     p_isClosed := p_isClosed params; p_fill := p_fill params |}.

(** [{kind: "rectangle", x: 600, y: 400, width: 200, height: 100}] *)
Definition rectangle_600_400 : Params :=
  sized (descriptor "rectangle" 600%float 400%float) (Some 200%float) (Some 100%float).

(** [{kind: "circle", x: 600, y: 400, width: 80, height: 30}] *)
Definition circle_600_400 : Params :=
  sized (descriptor "circle" 600%float 400%float) (Some 80%float) (Some 30%float).

(** [{kind: "draw", x: 10, y: 20, points: [{x: 0, y: 0}, {x: 5, y: 5, z: 1}]}] *)
Definition stroke_10_20 : Params :=
  withPoints (descriptor "draw" 10%float 20%float)
    [ {| pt_x := 0%float; pt_y := 0%float; pt_z := None |};
      {| pt_x := 5%float; pt_y := 5%float; pt_z := Some 1%float |} ].

Definition noParams : CommandParams :=
  {| cp_shape := descriptor "undefined" nan nan; cp_shapes := None |}.

End Canvas.

(** * The correlation core ([mcp-server/index.js]) *)

Module Bridge.

Local Open Scope string_scope.
Local Open Scope Z_scope.

#[local] Set Warnings "-register-all".

(** *** JSON values, as [JSON.parse] returns them

    [JNumber] carries the integral numbers; request ids are such numbers, and
    a number with a fractional part is equal to none of them.  [JObject]
    lists the properties of the parsed object, each key once. *)
Inductive JsValue :=
| JUndefined
| JNull
| JBool (b : bool)
| JNumber (n : Z)
| JString (s : string)
| JArray (items : list JsValue)
| JObject (props : list (string * JsValue)).

(** JavaScript truthiness, as [message.id && ...] tests it. *)
Definition truthy (v : JsValue) : bool :=
  match v with
  | JUndefined | JNull => false
  | JBool b => b
  | JNumber n => negb (n =? 0)
  | JString s => negb (String.eqb s "")
  | JArray _ | JObject _ => true
  end.

Fixpoint property (key : string) (props : list (string * JsValue)) : JsValue :=
  match props with
  | [] => JUndefined
  | (k, v) :: rest => if String.eqb k key then v else property key rest
  end.

(** [message.id] and [message.result]: reading a property of [null] throws,
    an object yields the property or [undefined], and the other values have
    no property of these names. *)
Definition getProp (v : JsValue) (key : string) : Completion JsValue :=
  match v with
  | JUndefined | JNull => Thrown "TypeError"
  | JObject props => Returned (property key props)
  | _ => Returned JUndefined
  end.

(** The key of the correlation table a value is equal to, if any (a [Map]
    compares keys with SameValueZero, so only a number equals a number
    key). *)
Definition asKey (v : JsValue) : option Z :=
  match v with
  | JNumber n => Some n
  | _ => None
  end.

(** [map.has(v)], [map.get(v)] and [map.delete(v)] for a [Map] whose keys
    are the request ids. *)
Definition mapHas {A : Type} (m : gmap Z A) (v : JsValue) : bool :=
  match asKey v ≫= (m !!.) with
  | Some _ => true
  | None => false
  end.

Definition mapGet {A : Type} (m : gmap Z A) (v : JsValue) : option A :=
  asKey v ≫= (m !!.).

Definition mapDelete {A : Type} (v : JsValue) (m : gmap Z A) : gmap Z A :=
  match asKey v with
  | Some key => delete key m
  | None => m
  end.

(** *** The state of the server *)

(** [{ id, command, params }], the envelope written to the renderer. *)
Record Envelope := {
  env_id : Z;
  env_command : string;
  env_params : JsValue
}.

(** A promise is named by the number of the [sendToCanvas] call that made
    it; a socket by the number of the connection that opened it. *)
Definition PromiseId := nat.
Definition Socket := nat.

(** What the handlers do to the outside world, newest first. *)
Inductive Effect :=
| Resolve (p : PromiseId) (value : JsValue)
| Reject (p : PromiseId) (message : string)
| Send (ws : Socket) (envelope : Envelope)
| ConsoleError (message : string).

(** An entry [{ resolve, reject }] of [pendingRequests]: both functions
    belong to the promise [promise]. *)
Record Pending := { promise : PromiseId }.

(** A timeout armed by [setTimeout]; its callback has captured [id] and
    the [reject] of the promise it was created in. *)
Record Timer := {
  t_due : Z;
  t_id : Z;
  t_promise : PromiseId
}.

Record State := {
  (* the variables of the module *)
  canvasClient : option Socket;
  pendingRequests : gmap Z Pending;
  requestId : Z;
  (* the runtime: open sockets, promises made, armed timers, the clock in
     milliseconds, and the effects so far *)
  clients : gset Socket;
  socketCount : nat;
  promiseCount : nat;
  timers : list Timer;
  now : Z;
  trace : list Effect
}.

Definition initial : State :=
  {| canvasClient := None; pendingRequests := ∅; requestId := 0;
     clients := ∅; socketCount := 0%nat; promiseCount := 0%nat;
     timers := []; now := 0; trace := [] |}.

Definition emit (eff : Effect) (s : State) : State :=
  {| canvasClient := canvasClient s; pendingRequests := pendingRequests s;
     requestId := requestId s; clients := clients s;
     socketCount := socketCount s; promiseCount := promiseCount s;
     timers := timers s; now := now s; trace := eff :: trace s |}.

Definition setClient (c : option Socket) (s : State) : State :=
  {| canvasClient := c; pendingRequests := pendingRequests s;
     requestId := requestId s; clients := clients s;
     socketCount := socketCount s; promiseCount := promiseCount s;
     timers := timers s; now := now s; trace := trace s |}.

Definition setPending (m : gmap Z Pending) (s : State) : State :=
  {| canvasClient := canvasClient s; pendingRequests := m;
     requestId := requestId s; clients := clients s;
     socketCount := socketCount s; promiseCount := promiseCount s;
     timers := timers s; now := now s; trace := trace s |}.

Definition setRequestId (n : Z) (s : State) : State :=
  {| canvasClient := canvasClient s; pendingRequests := pendingRequests s;
     requestId := n; clients := clients s;
     socketCount := socketCount s; promiseCount := promiseCount s;
     timers := timers s; now := now s; trace := trace s |}.

Definition setSockets (open : gset Socket) (count : nat) (s : State) : State :=
  {| canvasClient := canvasClient s; pendingRequests := pendingRequests s;
     requestId := requestId s; clients := open;
     socketCount := count; promiseCount := promiseCount s;
     timers := timers s; now := now s; trace := trace s |}.

Definition setClock (t : Z) (armed : list Timer) (s : State) : State :=
  {| canvasClient := canvasClient s; pendingRequests := pendingRequests s;
     requestId := requestId s; clients := clients s;
     socketCount := socketCount s; promiseCount := promiseCount s;
     timers := armed; now := t; trace := trace s |}.

(** [new Promise(...)]: the next promise. *)
Definition newPromise (s : State) : PromiseId * State :=
  (promiseCount s,
   {| canvasClient := canvasClient s; pendingRequests := pendingRequests s;
      requestId := requestId s; clients := clients s;
      socketCount := socketCount s; promiseCount := S (promiseCount s);
      timers := timers s; now := now s; trace := trace s |}).

(** *** [sendToCanvas] and the timeout callback *)

Definition notConnected : string :=
  "Canvas not connected. Please open the tldraw app in your browser.".

Definition timedOut : string := "Request timed out".

(** The delay handed to [setTimeout], in milliseconds: 10 seconds. *)
Definition TIMEOUT : Z := 10000.

(** [sendToCanvas(command, params)] returns the promise it made.  The
    counter [requestId] holds integers far below 2^53, where [++] on a
    JavaScript number is exact.  [canvasClient.send] is the [ws] library's:
    on a socket the server has accepted it queues the text and does not
    throw, so it is the effect [Send] and nothing else. *)
Definition sendToCanvas (command : string) (params : JsValue) (s : State)
  : PromiseId * State :=
  let '(p, s) := newPromise s in
  match canvasClient s with
  | None => (p, emit (Reject p notConnected) s)
  | Some ws =>
      let id := requestId s + 1 in
      let s := setRequestId id s in
      let s := setPending (<[id := {| promise := p |}]> (pendingRequests s)) s in
      let s :=
        emit (Send ws {| env_id := id; env_command := command; env_params := params |}) s in
      let s :=
        setClock (now s)
          (timers s ++ [ {| t_due := now s + TIMEOUT; t_id := id; t_promise := p |} ]) s in
      (p, s)
  end.

(** The callback of [setTimeout]. *)
Definition onTimeout (tm : Timer) (s : State) : State :=
  match pendingRequests s !! t_id tm with
  | Some _ =>
      emit (Reject (t_promise tm) timedOut)
        (setPending (delete (t_id tm) (pendingRequests s)) s)
  | None => s
  end.

(** *** The WebSocket handlers *)

(** [wss.on("connection", ws => ...)]: the new socket replaces whatever the
    slot held. *)
Definition onConnection (s : State) : State :=
  let ws := socketCount s in
  let s := setSockets ({[ ws ]} ∪ clients s) (S ws) s in
  let s := emit (ConsoleError "[MCP] Canvas connected") s in
  setClient (Some ws) s.

(** [ws.on("message", data => ...)]; [data] is [None] when [JSON.parse]
    throws.  Any exception ends in the [catch], which only logs. *)
Definition onMessage (data : option JsValue) (s : State) : State :=
  let caught := emit (ConsoleError "[MCP] Error parsing message:") s in
  match data with
  | None => caught
  | Some message =>
      match getProp message "id" with
      | Thrown _ => caught
      | Returned id =>
          if truthy id && mapHas (pendingRequests s) id then
            match mapGet (pendingRequests s) id, getProp message "result" with
            | Some entry, Returned result =>
                emit (Resolve (promise entry) result)
                  (setPending (mapDelete id (pendingRequests s)) s)
            | _, _ => caught
            end
          else s
      end
  end.

(** [ws.on("close", ...)]: the slot is emptied, whichever socket closed. *)
Definition onClose (ws : Socket) (s : State) : State :=
  let s := setSockets (clients s ∖ {[ ws ]}) (socketCount s) s in
  let s := emit (ConsoleError "[MCP] Canvas disconnected") s in
  setClient None s.

(** *** The event loop *)

(** What can happen to the server.  A socket speaks and closes only while
    it is open; the clock only moves forward, and moving it to [t] runs the
    callbacks of the timers due by then, oldest first. *)
Inductive Event :=
| Connection
| Message (ws : Socket) (data : option JsValue)
| Close (ws : Socket)
| Submit (command : string) (params : JsValue)
| Tick (t : Z).

Definition isDue (t : Z) (tm : Timer) : bool := t_due tm <=? t.

(** Run the callbacks of the timers in [due], in order. *)
Definition fire (due : list Timer) (s : State) : State :=
  fold_left (fun s tm => onTimeout tm s) due s.

Definition advance (t : Z) (s : State) : State :=
  let due := List.filter (isDue t) (timers s) in
  let later := List.filter (fun tm => negb (isDue t tm)) (timers s) in
  fire due (setClock t later s).

Definition step (s : State) (e : Event) : State :=
  match e with
  | Connection => onConnection s
  | Message ws data => if decide (ws ∈ clients s) then onMessage data s else s
  | Close ws => if decide (ws ∈ clients s) then onClose ws s else s
  | Submit command params => snd (sendToCanvas command params s)
  | Tick t => if now s <=? t then advance t s else s
  end.

Definition run (events : list Event) (s : State) : State :=
  fold_left step events s.

(** Events other than a new connection and the closing of [ws]. *)
Definition quiet (ws : Socket) (e : Event) : bool :=
  match e with
  | Connection => false
  | Close ws' => negb (Nat.eqb ws' ws)
  | _ => true
  end.

(** *** Reading the trace *)

Inductive PromiseState :=
| Unsettled
| Fulfilled (value : JsValue)
| Rejected (message : string).

(** The state an effect puts an unsettled promise [p] in. *)
Definition settle (p : PromiseId) (eff : Effect) : PromiseState :=
  match eff with
  | Resolve q value => if Nat.eqb p q then Fulfilled value else Unsettled
  | Reject q message => if Nat.eqb p q then Rejected message else Unsettled
  | _ => Unsettled
  end.

(** A promise keeps the state its first [resolve] or [reject] gave it. *)
Fixpoint promiseState (p : PromiseId) (effects : list Effect) : PromiseState :=
  match effects with
  | [] => Unsettled
  | eff :: earlier =>
      match promiseState p earlier with
      | Unsettled => settle p eff
      | settled => settled
      end
  end.

(** How many times [resolve] or [reject] of [p] was called. *)
Fixpoint settlements (p : PromiseId) (effects : list Effect) : nat :=
  match effects with
  | [] => 0%nat
  | eff :: earlier =>
      match settle p eff with
      | Unsettled => settlements p earlier
      | _ => S (settlements p earlier)
      end
  end.

(** The envelopes written to the renderers, newest first. *)
Fixpoint sent (effects : list Effect) : list (Socket * Envelope) :=
  match effects with
  | [] => []
  | Send ws envelope :: earlier => (ws, envelope) :: sent earlier
  | _ :: earlier => sent earlier
  end.

(** A reply envelope [{ id, result }]. *)
Definition reply (id result : JsValue) : JsValue :=
  JObject [("id", id); ("result", result)].

(** The reply [{ id, result }] would be taken: [id] is the key of an entry. *)
Definition matchesPending (s : State) (id : JsValue) : Prop :=
  exists key, id = JNumber key /\ is_Some (pendingRequests s !! key).

(** What the timeout callback leaves alone: everything but the table and
    the trace. *)
Definition rest (s : State) :=
  (canvasClient s, requestId s, clients s, socketCount s, promiseCount s,
   timers s, now s).

(** *** The invariant of the correlation table

    [Consistent armed pending lastId promises effects] ties the table to the
    timers in [armed], the id counter, the promises made and the trace. *)
Record Consistent (armed : list Timer) (pending : gmap Z Pending) (lastId : Z)
    (promises : nat) (effects : list Effect) : Prop := {
  counter_nonneg : 0 <= lastId;
  (* the keys are ids that were issued *)
  ids_issued : forall id e, pending !! id = Some e -> 0 < id <= lastId;
  (* an entry's promise exists and nobody has settled it *)
  entry_unsettled : forall id e, pending !! id = Some e ->
    (promise e < promises)%nat /\ settlements (promise e) effects = 0%nat;
  (* an entry's timeout is still armed *)
  entry_armed : forall id e, pending !! id = Some e ->
    exists tm, In tm armed /\ t_id tm = id;
  (* the [reject] a timer captured is the one stored under its id *)
  timer_rejects_entry : forall tm e, In tm armed ->
    pending !! t_id tm = Some e -> t_promise tm = promise e;
  (* two entries never share a promise *)
  entries_distinct : forall id id' e e',
    pending !! id = Some e -> pending !! id' = Some e' ->
    promise e = promise e' -> id = id';
  (* no promise was settled twice *)
  settled_once : forall p, (settlements p effects <= 1)%nat;
  (* a promise nobody settled is in the table *)
  unsettled_pending : forall p, (p < promises)%nat ->
    settlements p effects = 0%nat ->
    exists id e, pending !! id = Some e /\ promise e = p;
  (* promises that do not exist yet are untouched *)
  fresh_unsettled : forall p, (promises <= p)%nat -> settlements p effects = 0%nat;
  (* the only rejections are the two of [sendToCanvas] *)
  rejections : forall p message, In (Reject p message) effects ->
    message = timedOut \/ message = notConnected
}.

Record Invariant (s : State) : Prop := {
  inv_consistent :
    Consistent (timers s) (pendingRequests s) (requestId s) (promiseCount s) (trace s);
  inv_timer_ids : forall tm, In tm (timers s) -> t_id tm <= requestId s;
  inv_timer_nodup : NoDup (map t_id (timers s));
  inv_deadlines : forall tm, In tm (timers s) -> now s < t_due tm <= now s + TIMEOUT;
  inv_slot : forall ws, canvasClient s = Some ws -> ws ∈ clients s;
  inv_sockets : forall ws, ws ∈ clients s -> (ws < socketCount s)%nat
}.

(** The deadline and the id of every armed timer. *)
Definition timerKeys (s : State) : list (Z * Z) :=
  map (fun tm => (t_due tm, t_id tm)) (timers s).

(** Two states that differ at most in their promises and in the effects
    other than sends: the variables of the module, the sockets, the clock, the
    timers' deadlines and ids, the keys of the table and the envelopes sent
    agree. *)
Record SameCourse (a b : State) : Prop := {
  same_client : canvasClient a = canvasClient b;
  same_requestId : requestId a = requestId b;
  same_keys : forall id, is_Some (pendingRequests a !! id) <-> is_Some (pendingRequests b !! id);
  same_clients : clients a = clients b;
  same_socketCount : socketCount a = socketCount b;
  same_timers : timerKeys a = timerKeys b;
  same_now : now a = now b;
  same_sent : sent (trace a) = sent (trace b)
}.

End Bridge.

(** * The commands of the renderer ([src/useCanvasBridge.ts], [handleCommand]) *)

Module Renderer.

Local Open Scope string_scope.

(** The [case] labels of [handleCommand]. *)
Definition commands : list string :=
  ["create_shape"; "create_shapes"; "clear"; "get_shapes"; "undo"; "redo";
   "zoom_to_fit"; "delete_selected"].

End Renderer.

(** * Reading the envelopes off the trace *)

Module Correlation.
Import Bridge.

(** The ids of the envelopes written so far, newest first. *)
Definition sentIds (s : State) : list Z :=
  map (fun x => env_id (snd x)) (sent (trace s)).

(** [n, n-1, ..., 1] *)
Fixpoint idsDown (n : nat) : list Z :=
  match n with
  | O => []
  | S k => Z.of_nat (S k) :: idsDown k
  end.

End Correlation.

(** * The MCP tool handler ([mcp-server/index.js], [CallToolRequestSchema]) *)

Module Mcp.
Import Bridge.

Local Open Scope string_scope.

(** The names [ListToolsRequestSchema] answers with. *)
Definition toolNames : list string :=
  ["canvas_create_shape"; "canvas_create_shapes"; "canvas_clear";
   "canvas_get_shapes"; "canvas_undo"; "canvas_redo"; "canvas_zoom_to_fit";
   "canvas_delete_selected"].

(** The [switch (name)] of the handler: the command and the params handed to
    [sendToCanvas], or [None] where it throws [Unknown tool]. *)
Definition toolCommand (name : string) (args : JsValue) : option (string * JsValue) :=
  if String.eqb name "canvas_create_shape" then Some ("create_shape", args)
  else if String.eqb name "canvas_create_shapes" then Some ("create_shapes", args)
  else if String.eqb name "canvas_clear" then Some ("clear", JObject [])
  else if String.eqb name "canvas_get_shapes" then Some ("get_shapes", JObject [])
  else if String.eqb name "canvas_undo" then Some ("undo", JObject [])
  else if String.eqb name "canvas_redo" then Some ("redo", JObject [])
  else if String.eqb name "canvas_zoom_to_fit" then Some ("zoom_to_fit", JObject [])
  else if String.eqb name "canvas_delete_selected" then Some ("delete_selected", JObject [])
  else None.

(** [{ content: [{ type: "text", text }], isError }] *)
Record ToolResult := {
  tr_text : JsValue;
  tr_isError : bool
}.

(** The handler up to its [await]: either a promise of [sendToCanvas] to
    wait for, or the answer of the [catch] for an unknown tool. *)
Definition callTool (name : string) (args : JsValue) (s : State)
  : (PromiseId + ToolResult) * State :=
  match toolCommand name args with
  | Some (command, params) =>
      let '(p, s) := sendToCanvas command params s in (inl p, s)
  | None =>
      (inr {| tr_text := JString ("Error: Unknown tool: " ++ name); tr_isError := true |}, s)
  end.

Section Answer.
  (** [JSON.stringify(result, null, 2)], which is the runtime's. *)
  Variable stringify : JsValue -> JsValue.

(** The handler after its [await], by the state of the promise: nothing
    while it is unsettled, the result as text when it is fulfilled, the
    [catch] when it is rejected. *)
Definition toolAnswer (st : PromiseState) : option ToolResult :=
  match st with
  | Unsettled => None
  | Fulfilled result =>
      Some {| tr_text := match result with
                         | JString _ => result
                         | _ => stringify result
                         end;
              tr_isError := false |}
  | Rejected message =>
      Some {| tr_text := JString ("Error: " ++ message); tr_isError := true |}
  end.
End Answer.

End Mcp.

(** * The second normaliser ([src/llmService.ts], [createShape]) *)

Module Llm.
Import Canvas.

Local Open Scope string_scope.

(** [Math.max(a, b)] on doubles: NaN if either is NaN, and [+0] above
    [-0]. *)
Definition Math_max (a b : float) : float :=
  if PrimFloat.is_nan a || PrimFloat.is_nan b then nan
  else if PrimFloat.ltb a b then b
  else if PrimFloat.ltb b a then a
  else if PrimFloat.is_zero a && PrimFloat.get_sign a then b
  else a.

(** The frame shape, which only this normaliser builds. *)
Record FrameShape := {
  f_id : ShapeId;
  f_x : float;
  f_y : float;
  f_w : float;
  f_h : float;
  f_name : string
}.

(** The [switch (shape.kind)] of [createShape]: the shape handed to
    [editor.createShape], or [None] where [default] returns without creating
    anything.  The descriptor has the fields [kind], [x], [y], [width],
    [height], [text], [endX] and [endY]. *)
Definition shapePartial (shapeId : ShapeId) (shape : Params)
  : option (Shape + FrameShape) :=
  let kind := p_kind shape in
  let x := p_x shape in
  let y := p_y shape in
  let width := p_width shape ?? 100%float in
  let height := p_height shape ?? 100%float in
  if String.eqb kind "rectangle" then Some (inl (geoShape shapeId "rectangle" x y width height))
  else if String.eqb kind "circle" then Some (inl (geoShape shapeId "ellipse" x y width width))
  else if String.eqb kind "ellipse" then Some (inl (geoShape shapeId "ellipse" x y width height))
  else if String.eqb kind "triangle" then Some (inl (geoShape shapeId "triangle" x y width height))
  else if String.eqb kind "star" then Some (inl (geoShape shapeId "star" x y width height))
  else if String.eqb kind "diamond" then Some (inl (geoShape shapeId "diamond" x y width height))
  else if String.eqb kind "hexagon" then Some (inl (geoShape shapeId "hexagon" x y width height))
  else if String.eqb kind "cloud" then Some (inl (geoShape shapeId "cloud" x y width height))
  else if String.eqb kind "text" then
    Some (inl {| s_id := shapeId; s_type := "text"; s_x := x; s_y := y;
                 s_props := RichTextProps (toRichText (p_text shape ?? "Text")) |})
  else if String.eqb kind "note" then
    Some (inl {| s_id := shapeId; s_type := "note";
                 s_x := PrimFloat.sub x (PrimFloat.div width 2%float);
                 s_y := PrimFloat.sub y (PrimFloat.div height 2%float);
                 s_props := RichTextProps (toRichText (p_text shape ?? "Note")) |})
  else if String.eqb kind "frame" then
    Some (inr {| f_id := shapeId;
                 f_x := PrimFloat.sub x (PrimFloat.div width 2%float);
                 f_y := PrimFloat.sub y (PrimFloat.div height 2%float);
                 f_w := Math_max width 200%float;
                 f_h := Math_max height 150%float;
                 f_name := p_text shape ?? "Frame" |})
  else if String.eqb kind "arrow" then
    Some (inl {| s_id := shapeId; s_type := "arrow"; s_x := x; s_y := y;
                 s_props :=
                   ArrowProps {| v_x := 0%float; v_y := 0%float |}
                              {| v_x := p_endX shape ?? 100%float;
                                 v_y := p_endY shape ?? 0%float |} |})
  else if String.eqb kind "line" then
    Some (inl {| s_id := shapeId; s_type := "line"; s_x := x; s_y := y;
                 s_props :=
                   LineProps
                     {| lp_id := "a1"; lp_index := "a1"; lp_x := 0%float; lp_y := 0%float |}
                     {| lp_id := "a2"; lp_index := "a2";
                        lp_x := p_endX shape ?? 100%float;
                        lp_y := p_endY shape ?? 0%float |} |})
  else None.

(** The kinds both normalisers have a [case] for. *)
Definition sharedKinds : list string :=
  ["rectangle"; "circle"; "ellipse"; "triangle"; "star"; "diamond"; "hexagon";
   "cloud"; "text"; "note"; "arrow"; "line"].

End Llm.

(** * The executor on the data as it arrives ([src/useCanvasBridge.ts])

    [Canvas] follows the type annotations of the source and an editor that
    takes every shape.  Here the two places where the program can throw are
    modelled as well: reading through a value that is [null] or no array
    ([params.kind], [shapes.map], [seg.points.map], [p.x]), and
    [editor.createShape], which validates the shape it is given and throws
    when it refuses it.  Nothing between [handleCommand] and the [catch] of
    [ws.onmessage] catches these. *)

Module Wire.
Import Canvas.

Local Open Scope string_scope.

(** An array-valued property as it arrives. *)
Inductive WireArray (A : Type) : Type :=
| Falsy
| NotArray
| Items (items : list A).

Arguments Falsy {A}.
Arguments NotArray {A}.
Arguments Items {A} items.

(** [Falsy]: [undefined], [null] or another falsy value; [NotArray]: a truthy
    value without [.map]; [Items]: an array, whose elements are [None] where
    they are [null] or [undefined]. *)
Record WireSegment := {
  ws_type : SegmentType;
  ws_points : WireArray (option Point)
}.

(** A descriptor object.  The scalar fields are typed as the source
    annotates them. *)
Record WireParams := {
  w_kind : string;
  w_x : float;
  w_y : float;
  w_width : option float;
  w_height : option float;
  w_text : option string;
  w_endX : option float;
  w_endY : option float;
  w_points : WireArray (option Point);
  w_segments : WireArray (option WireSegment);
  w_color : option string;
  w_size : option string;
  w_isClosed : option bool;
  w_fill : option string
}.

(** The [params] object of a command: its own descriptor fields and its
    [shapes] property. *)
Record WireCommandParams := {
  wcp_own : WireParams;
  wcp_shapes : WireArray (option WireParams)
}.

(** A command; [wc_params] is [None] when [params] is [null] or absent. *)
Record WireCommand := {
  wc_id : Z;
  wc_command : string;
  wc_params : option WireCommandParams
}.


Definition TypeError : string := "TypeError".
Definition ValidationError : string := "ValidationError".

(** [items.map(read)] for a [read] that may throw: the first throw ends
    the loop. *)
Fixpoint readAll {A B : Type} (read : A -> Completion B) (items : list A)
  : Completion (list B) :=
  match items with
  | [] => Returned []
  | a :: rest =>
      match read a with
      | Thrown e => Thrown e
      | Returned b =>
          match readAll read rest with
          | Thrown e => Thrown e
          | Returned bs => Returned (b :: bs)
          end
      end
  end.

(** [p.x]: reading a property of a [null] point throws. *)
Definition readPoint (p : option Point) : Completion Point :=
  match p with
  | Some p => Returned p
  | None => Thrown TypeError
  end.

(** [points.map(p => ...)]: only an array has [.map]. *)
Definition readPoints (points : WireArray (option Point)) : Completion (list Point) :=
  match points with
  | Items ps => readAll readPoint ps
  | Falsy | NotArray => Thrown TypeError
  end.

(** [seg => ({ type: seg.type, points: seg.points.map(...) })] *)
Definition readSegment (seg : option WireSegment) : Completion Segment :=
  match seg with
  | None => Thrown TypeError
  | Some seg =>
      match readPoints (ws_points seg) with
      | Thrown e => Thrown e
      | Returned ps => Returned {| seg_type := ws_type seg; seg_points := ps |}
      end
  end.

Definition isPathKind (kind : string) : bool :=
  String.eqb kind "draw" || String.eqb kind "freehand".

(** The path data [createShape] reads, in the order it reads it: only the
    draw/freehand case looks at [segments] and [points]; [if (segments)] comes
    first and [points] is then not read at all. *)
Definition readPath (params : WireParams)
  : Completion (option (list Point) * option (list Segment)) :=
  if isPathKind (w_kind params) then
    match w_segments params with
    | Items segs =>
        match readAll readSegment segs with
        | Thrown e => Thrown e
        | Returned segs => Returned (None, Some segs)
        end
    | NotArray => Thrown TypeError
    | Falsy =>
        match w_points params with
        | Items ps =>
            match readAll readPoint ps with
            | Thrown e => Thrown e
            | Returned ps => Returned (Some ps, None)
            end
        | NotArray => Thrown TypeError
        | Falsy => Returned (None, None)
        end
    end
  else Returned (None, None).

(** The descriptor with the path data that was read. *)
Definition withPath (params : WireParams)
    (path : option (list Point) * option (list Segment)) : Params :=
  {| p_kind := w_kind params; p_x := w_x params; p_y := w_y params;
     p_width := w_width params; p_height := w_height params;
     p_text := w_text params; p_endX := w_endX params; p_endY := w_endY params;
     p_points := fst path; p_segments := snd path;
     p_color := w_color params; p_size := w_size params;
     p_isClosed := w_isClosed params; p_fill := w_fill params |}.

(** The [switch (kind)] of [createShape] on a descriptor object: it throws
    where reading the path data throws, and is [Canvas.shapePartial]
    otherwise. *)
Definition shapePartial (shapeId : ShapeId) (params : WireParams)
  : Completion (Shape + string) :=
  match readPath params with
  | Thrown e => Thrown e
  | Returned path => Returned (Canvas.shapePartial shapeId (withPath params path))
  end.

Section Executor.
(** [accepts editor shape]: whether [editor.createShape(shape)] takes the
    shape; where it does not, it throws and the editor is as before.  Which
    shapes the editor takes is tldraw's business. *)
Variable accepts : Editor -> Shape -> bool.

(** [createShape(editor, params)]; [params] is [None] when it is [null] or
    absent, and [params.kind] then throws, after the shape id was drawn. *)
Definition createShape (editor : Editor) (params : option WireParams)
  : Editor * Completion CreateResult :=
  let '(shapeId, editor) := createShapeId editor in
  match params with
  | None => (editor, Thrown TypeError)
  | Some params =>
      match shapePartial shapeId params with
      | Thrown e => (editor, Thrown e)
      | Returned (inr error) => (editor, Returned (CreateError error))
      | Returned (inl shape) =>
          if accepts editor shape
          then (editor_createShape editor shape, Returned (Created shapeId))
          else (editor, Thrown ValidationError)
      end
  end.

(** [shapes.map(shape => createShape(editor, shape))]: a throw ends the
    loop; what was created before it stays. *)
Fixpoint createEach (editor : Editor) (shapes : list (option WireParams))
  : Editor * Completion (list CreateResult) :=
  match shapes with
  | [] => (editor, Returned [])
  | shape :: rest =>
      match createShape editor shape with
      | (editor, Thrown e) => (editor, Thrown e)
      | (editor, Returned r) =>
          match createEach editor rest with
          | (editor, Thrown e) => (editor, Thrown e)
          | (editor, Returned rs) => (editor, Returned (r :: rs))
          end
      end
  end.

(** [handleCommand(editor, command)].  The two creating commands read
    [params]; the other cases do not and are those of
    [Canvas.handleCommand]. *)
Definition handleCommand (editor : Editor) (command : WireCommand)
  : Editor * Completion CommandResult :=
  let cmd := wc_command command in
  let params := wc_params command in
  if String.eqb cmd "create_shape" then
    match createShape editor (option_map wcp_own params) with
    | (editor, Thrown e) => (editor, Thrown e)
    | (editor, Returned r) => (editor, Returned (ShapeResult r))
    end
  else if String.eqb cmd "create_shapes" then
    match params with
    | None => (editor, Thrown TypeError)
    | Some params =>
        match wcp_shapes params with
        | Falsy | NotArray => (editor, Thrown TypeError)
        | Items shapes =>
            match createEach editor shapes with
            | (editor, Thrown e) => (editor, Thrown e)
            | (editor, Returned results) =>
                (editor, Returned (BatchResult (length shapes) results))
            end
        end
    end
  else
    Canvas.handleCommand editor
      {| cmd_id := wc_id command; cmd_command := cmd; cmd_params := noParams |}.


(** [{ id, command: "create_shape", params: shape }] *)
Definition createShapeCommand (id : Z) (shape : option WireParams) : WireCommand :=
  {| wc_id := id; wc_command := "create_shape";
     wc_params := option_map (fun d => {| wcp_own := d; wcp_shapes := Falsy |}) shape |}.

(** [{ id, command: "create_shapes", params: { ..., shapes } }] *)
Definition createShapesCommand (id : Z) (own : WireParams)
    (shapes : list (option WireParams)) : WireCommand :=
  {| wc_id := id; wc_command := "create_shapes";
     wc_params := Some {| wcp_own := own; wcp_shapes := Items shapes |} |}.

(** The shapes of a batch sent as [create_shape] commands, one after the
    other; a command that throws does not stop the next one. *)
Fixpoint oneByOne (id : Z) (editor : Editor) (shapes : list (option WireParams))
  : Editor * list (Completion CommandResult) :=
  match shapes with
  | [] => (editor, [])
  | shape :: rest =>
      let '(editor, r) := handleCommand editor (createShapeCommand id shape) in
      let '(editor, rs) := oneByOne id editor rest in
      (editor, r :: rs)
  end.

End Executor.

(** *** Vocabulary for the statements *)

(** A descriptor object with the path data of a typed one. *)
Definition ofParams (params : Params) : WireParams :=
  {| w_kind := p_kind params; w_x := p_x params; w_y := p_y params;
     w_width := p_width params; w_height := p_height params;
     w_text := p_text params; w_endX := p_endX params; w_endY := p_endY params;
     w_points :=
       match p_points params with
       | Some ps => Items (map Some ps)
       | None => Falsy
       end;
     w_segments :=
       match p_segments params with
       | Some segs =>
           Items (map (fun seg => Some {| ws_type := seg_type seg;
                                          ws_points := Items (map Some (seg_points seg)) |})
                      segs)
       | None => Falsy
       end;
     w_color := p_color params; w_size := p_size params;
     w_isClosed := p_isClosed params; w_fill := p_fill params |}.

(** The typed descriptor [createShape] works on once the path data is
    read. *)
Definition typed (params : WireParams) : Params :=
  match readPath params with
  | Returned path => withPath params path
  | Thrown _ => withPath params (None, None)
  end.

(** An object without descriptor fields. *)
Definition noDescriptor : WireParams := ofParams (descriptor "undefined" nan nan).

(** The path data of the descriptor can be read without a throw. *)
Definition readable (params : WireParams) : Prop :=
  exists path, readPath params = Returned path.

(** The descriptor is refused with an error object: its kind is unknown, or
    it is a draw/freehand descriptor with neither [segments] nor [points]. *)
Definition refused (params : WireParams) : Prop :=
  ~ In (w_kind params) kind_enum \/
  (isPathKind (w_kind params) = true /\
   w_segments params = Falsy /\ w_points params = Falsy).

(** The descriptor normalises to a shape. *)
Definition normalises (params : WireParams) : Prop :=
  readable params /\ ~ refused params.

(** How many entries of a batch report success. *)
Definition successes (results : list CreateResult) : nat :=
  length (List.filter (fun r => match r with Created _ => true | CreateError _ => false end)
            results).

(** An editor that, like tldraw's validation of geo shapes, takes a geo
    shape only when its width and height are positive. *)
Definition positiveSize (editor : Editor) (shape : Shape) : bool :=
  match s_props shape with
  | GeoProps _ w h => PrimFloat.ltb 0%float w && PrimFloat.ltb 0%float h
  | _ => true
  end.



End Wire.

(** * Properties of the executor *)

Module CanvasFacts.
Import Canvas.

Local Open Scope string_scope.

(** Decide every [String.eqb] of the goal; [tac] closes the branches in which
    the kind equals a label. *)
Ltac switch_on_kind tac :=
  repeat match goal with
    | |- context [String.eqb ?a ?b] =>
        destruct (String.eqb_spec a b) as [?|?]; [solve [tac] |]
    end.

Lemma createShape_inl editor params shape :
  shapePartial (idSeed editor) params = inl shape -> creates editor params shape.
Proof.
  intros H. unfold creates, createShape. cbn [createShapeId fst snd].
  rewrite H. reflexivity.
Qed.

Lemma createShape_inr editor params error :
  shapePartial (idSeed editor) params = inr error -> rejects editor params error.
Proof.
  intros H. unfold rejects, createShape. cbn [createShapeId fst snd].
  rewrite H. reflexivity.
Qed.



Lemma unknown_kind_inr i params :
  ~ In (p_kind params) kind_enum ->
  shapePartial i params = inr ("Unknown shape kind: " ++ p_kind params).
Proof.
  intros Hnot. unfold shapePartial.
  switch_on_kind ltac:(exfalso; apply Hnot; simpl; intuition congruence).
  reflexivity.
Qed.

Lemma valid_inl i params :
  valid params -> exists shape, shapePartial i params = inl shape /\ s_id shape = i.
Proof.
  intros [Hin Hpath]. destruct params as [kind x y w h t ex ey pts segs c sz cl fl].
  cbn [p_kind p_points p_segments] in *. unfold shapePartial. cbn -[String.eqb].
  simpl in Hin.
  destruct Hin as [<-|[<-|[<-|[<-|[<-|[<-|[<-|[<-|[<-|[<-|[<-|[<-|[<-|[<-|[]]]]]]]]]]]]]]];
    cbn; try (eexists; split; [reflexivity | reflexivity]).
  all: destruct segs as [segs|]; [eexists; split; reflexivity |].
  all: destruct pts as [pts|]; [eexists; split; reflexivity |].
  all: exfalso; destruct Hpath as [H|H]; auto; apply H; reflexivity.
Qed.

(** The shape a geo kind is normalised to. *)
Lemma geo_inl i params geo :
  In (p_kind params) box_like -> geo = p_kind params ->
  shapePartial i params =
    inl (geoShape i geo (p_x params) (p_y params)
           (p_width params ?? 100%float) (p_height params ?? 100%float)).
Proof.
  intros Hin ->. destruct params as [kind x y w h t ex ey pts segs c sz cl fl].
  cbn [p_kind] in *. simpl in Hin.
  destruct Hin as [<-|[<-|[<-|[<-|[<-|[<-|[<-|[]]]]]]]]; reflexivity.
Qed.

(** C4.  Every box-like descriptor (rectangle, ellipse, triangle, star,
    diamond, hexagon, cloud) is created as a geo shape anchored at
    [(x - width/2, y - height/2)], with [width] and [height] defaulting to
    100 when unset; for kind [circle] the width and the height of the shape
    are both the supplied width, whatever [height] is, and the anchor is
    [(x - width/2, y - width/2)]. *)
Theorem box_like_anchor (editor : Editor) (params : Params) :
  let x := p_x params in
  let y := p_y params in
  let width := match p_width params with Some w => w | None => 100%float end in
  let height := match p_height params with Some h => h | None => 100%float end in
  (In (p_kind params) box_like ->
   exists shape,
     creates editor params shape /\
     s_x shape = PrimFloat.sub x (PrimFloat.div width 2%float) /\
     s_y shape = PrimFloat.sub y (PrimFloat.div height 2%float) /\
     s_props shape = GeoProps (p_kind params) width height) /\
  (p_kind params = "circle" ->
   exists shape,
     creates editor params shape /\
     s_x shape = PrimFloat.sub x (PrimFloat.div width 2%float) /\
     s_y shape = PrimFloat.sub y (PrimFloat.div width 2%float) /\
     s_props shape = GeoProps "ellipse" width width).
Proof.
  cbv zeta. split.
  - intros Hin. eexists. split.
    + apply createShape_inl. apply geo_inl; [exact Hin | reflexivity].
    + repeat split.
  - intros Hk. eexists. split.
    + apply createShape_inl. unfold shapePartial. rewrite Hk. reflexivity.
    + repeat split.
Qed.

Lemma box_like_anchor_witness :
  (exists shape,
     creates emptyEditor rectangle_600_400 shape /\
     s_x shape = 500%float /\ s_y shape = 350%float /\
     s_props shape = GeoProps "rectangle" 200%float 100%float) /\
  (exists shape,
     creates emptyEditor circle_600_400 shape /\
     s_x shape = 560%float /\ s_y shape = 360%float /\
     s_props shape = GeoProps "ellipse" 80%float 80%float).
Proof.
  split.
  - apply (box_like_anchor emptyEditor rectangle_600_400). simpl. tauto.
  - apply (box_like_anchor emptyEditor circle_600_400). reflexivity.
Defined.

(** C6.  A draw/freehand descriptor with [points] and no [segments] is
    created as a draw shape with exactly one segment, of type [free], that
    holds the given points in order, each with pressure [z] when it has one
    and 0.5 otherwise; a draw/freehand descriptor with neither [points] nor
    [segments] is rejected with an error and nothing is added to the page. *)
Theorem draw_points_single_free_segment (editor : Editor) (params : Params) :
  p_kind params = "draw" \/ p_kind params = "freehand" ->
  p_segments params = None ->
  (forall points, p_points params = Some points ->
     exists shape pts,
       creates editor params shape /\
       s_type shape = "draw" /\
       s_props shape =
         DrawProps [ {| ds_type := free; ds_points := pts |} ]
           (match p_color params with Some c => c | None => "black" end)
           (match p_size params with Some c => c | None => "m" end)
           (match p_fill params with Some c => c | None => "none" end)
           "draw" true
           (match p_isClosed params with Some c => c | None => false end)
           false 1%float /\
       length pts = length points /\
       forall i p, points !! i = Some p ->
         pts !! i =
           Some {| vz_x := pt_x p; vz_y := pt_y p;
                   vz_z := match pt_z p with Some z => z | None => 0.5%float end |}) /\
  (p_points params = None ->
   rejects editor params "Draw shape requires points or segments" /\
   pageShapes (fst (createShape editor params)) = pageShapes editor).
Proof.
  intros Hk Hsegs. split.
  - intros points Hpts. eexists. exists (map withPressure points). split.
    + apply createShape_inl. unfold shapePartial. rewrite Hsegs, Hpts.
      destruct Hk as [-> | ->]; reflexivity.
    + split; [reflexivity |]. split; [reflexivity |].
      split; [apply length_map |].
      intros i p Hi. rewrite list_lookup_fmap, Hi. reflexivity.
  - intros Hpts.
    assert (Hr : rejects editor params "Draw shape requires points or segments").
    { apply createShape_inr. unfold shapePartial. rewrite Hsegs, Hpts.
      destruct Hk as [-> | ->]; reflexivity. }
    split; [exact Hr |]. rewrite Hr. reflexivity.
Qed.

Lemma draw_points_single_free_segment_witness :
  exists shape,
    creates emptyEditor stroke_10_20 shape /\
    s_props shape =
      DrawProps
        [ {| ds_type := free;
             ds_points :=
               [ {| vz_x := 0%float; vz_y := 0%float; vz_z := 0.5%float |};
                 {| vz_x := 5%float; vz_y := 5%float; vz_z := 1%float |} ] |} ]
        "black" "m" "none" "draw" true false false 1%float.
Proof.
  destruct (proj1 (draw_points_single_free_segment emptyEditor stroke_10_20
                     (or_introl eq_refl) eq_refl) _ eq_refl)
    as (shape & pts & Hc & _ & Hp & Hl & Hz).
  exists shape. split; [exact Hc |]. rewrite Hp.
  pose proof (Hz 0%nat _ eq_refl) as H0. pose proof (Hz 1%nat _ eq_refl) as H1.
  destruct pts as [|a [|b [|c pts]]]; try discriminate Hl.
  injection H0 as ->. injection H1 as ->. reflexivity.
Defined.

(** C7.  An arrow or line descriptor is anchored at [(x, y)] itself; its
    start point is the offset [(0, 0)] and its terminal point the offset
    [(endX, endY)], where an unset [endX] is 100 and an unset [endY] is 0. *)
Theorem connector_offsets (editor : Editor) (params : Params) :
  let endX := match p_endX params with Some v => v | None => 100%float end in
  let endY := match p_endY params with Some v => v | None => 0%float end in
  (p_kind params = "arrow" ->
   exists shape,
     creates editor params shape /\
     s_type shape = "arrow" /\
     s_x shape = p_x params /\ s_y shape = p_y params /\
     s_props shape =
       ArrowProps {| v_x := 0%float; v_y := 0%float |} {| v_x := endX; v_y := endY |}) /\
  (p_kind params = "line" ->
   exists shape a1 a2,
     creates editor params shape /\
     s_type shape = "line" /\
     s_x shape = p_x params /\ s_y shape = p_y params /\
     s_props shape = LineProps a1 a2 /\
     (lp_x a1, lp_y a1) = (0%float, 0%float) /\
     (lp_x a2, lp_y a2) = (endX, endY)).
Proof.
  cbv zeta. split; intros Hk.
  - eexists. split.
    + apply createShape_inl. unfold shapePartial. rewrite Hk. reflexivity.
    + repeat split.
  - eexists. eexists. eexists. split.
    + apply createShape_inl. unfold shapePartial. rewrite Hk. reflexivity.
    + repeat split.
Qed.

Lemma connector_offsets_witness :
  exists shape,
    creates emptyEditor (descriptor "arrow" 400%float 400%float) shape /\
    (s_x shape, s_y shape) = (400%float, 400%float) /\
    s_props shape =
      ArrowProps {| v_x := 0%float; v_y := 0%float |}
                 {| v_x := 100%float; v_y := 0%float |}.
Proof.
  destruct (proj1 (connector_offsets emptyEditor
                     (descriptor "arrow" 400%float 400%float)) eq_refl)
    as (shape & Hc & _ & Hx & Hy & Hp).
  exists shape. rewrite Hx, Hy, Hp. split; [exact Hc |]. split; reflexivity.
Defined.

(** C8.  A text descriptor is anchored at [(x, y)] with no centring and a
    missing [text] becomes ["Text"]; a note descriptor is anchored at
    [(x - width/2, y - height/2)] like the box-like kinds and a missing
    [text] becomes ["Note"]. *)
Theorem text_and_note_anchor (editor : Editor) (params : Params) :
  let width := match p_width params with Some w => w | None => 100%float end in
  let height := match p_height params with Some h => h | None => 100%float end in
  (p_kind params = "text" ->
   exists shape,
     creates editor params shape /\
     s_type shape = "text" /\
     s_x shape = p_x params /\ s_y shape = p_y params /\
     s_props shape =
       RichTextProps
         (toRichText (match p_text params with Some t => t | None => "Text" end))) /\
  (p_kind params = "note" ->
   exists shape,
     creates editor params shape /\
     s_type shape = "note" /\
     s_x shape = PrimFloat.sub (p_x params) (PrimFloat.div width 2%float) /\
     s_y shape = PrimFloat.sub (p_y params) (PrimFloat.div height 2%float) /\
     s_props shape =
       RichTextProps
         (toRichText (match p_text params with Some t => t | None => "Note" end))).
Proof.
  cbv zeta. split; intros Hk; eexists; (split;
    [apply createShape_inl; unfold shapePartial; rewrite Hk; reflexivity
    | repeat split]).
Qed.

Lemma text_and_note_anchor_witness :
  (exists shape,
     creates emptyEditor (descriptor "text" 300%float 200%float) shape /\
     (s_x shape, s_y shape) = (300%float, 200%float) /\
     s_props shape = RichTextProps (toRichText "Text")) /\
  (exists shape,
     creates emptyEditor (descriptor "note" 300%float 200%float) shape /\
     (s_x shape, s_y shape) = (250%float, 150%float) /\
     s_props shape = RichTextProps (toRichText "Note")).
Proof.
  split.
  - destruct (proj1 (text_and_note_anchor emptyEditor
                       (descriptor "text" 300%float 200%float)) eq_refl)
      as (shape & Hc & _ & Hx & Hy & Hp).
    exists shape. rewrite Hx, Hy, Hp. split; [exact Hc |]. split; reflexivity.
  - destruct (proj2 (text_and_note_anchor emptyEditor
                       (descriptor "note" 300%float 200%float)) eq_refl)
      as (shape & Hc & _ & Hx & Hy & Hp).
    exists shape. rewrite Hx, Hy, Hp. split; [exact Hc |]. split; reflexivity.
Defined.

(** C9.  [clear] on a page without shapes and [delete_selected] with
    nothing selected return [{ success: true, deletedCount: 0 }], never an
    error, and leave the editor as it was, so repeating them gives the same
    answer. *)
Theorem clear_and_delete_selected_on_empty
    (editor : Editor) (id : Z) (params : CommandParams) :
  (getCurrentPageShapes editor = [] ->
   handleCommand editor {| cmd_id := id; cmd_command := "clear"; cmd_params := params |}
     = (editor, Returned (DeletedResult 0))) /\
  (getSelectedShapes editor = [] ->
   handleCommand editor
     {| cmd_id := id; cmd_command := "delete_selected"; cmd_params := params |}
     = (editor, Returned (DeletedResult 0))).
Proof.
  split; intros Hempty; unfold handleCommand; cbn -[getSelectedShapes];
    rewrite Hempty; reflexivity.
Qed.

Lemma clear_and_delete_selected_on_empty_witness :
  handleCommand emptyEditor
    {| cmd_id := 1; cmd_command := "clear"; cmd_params := noParams |}
    = (emptyEditor, Returned (DeletedResult 0)) /\
  handleCommand emptyEditor
    {| cmd_id := 2; cmd_command := "delete_selected"; cmd_params := noParams |}
    = (emptyEditor, Returned (DeletedResult 0)).
Proof.
  split.
  - exact (proj1 (clear_and_delete_selected_on_empty emptyEditor 1 noParams) eq_refl).
  - exact (proj2 (clear_and_delete_selected_on_empty emptyEditor 2 noParams) eq_refl).
Defined.

(** *** Batches *)







End CanvasFacts.

(** * Properties of the correlation core *)

Module BridgeFacts.
Import Bridge.

Local Open Scope string_scope.
Local Open Scope Z_scope.

(** ** Promises and the trace *)

Section Trace.
Variable p : PromiseId.

Lemma settle_resolve value : settle p (Resolve p value) = Fulfilled value.
Proof. cbn. rewrite Nat.eqb_refl. reflexivity. Qed.

Lemma settle_reject message : settle p (Reject p message) = Rejected message.
Proof. cbn. rewrite Nat.eqb_refl. reflexivity. Qed.

Lemma settle_resolve_other q value : p <> q -> settle p (Resolve q value) = Unsettled.
Proof. intros Hne. cbn. destruct (Nat.eqb_spec p q); [contradiction | reflexivity]. Qed.

Lemma settle_reject_other q message : p <> q -> settle p (Reject q message) = Unsettled.
Proof. intros Hne. cbn. destruct (Nat.eqb_spec p q); [contradiction | reflexivity]. Qed.

Lemma settlements_quiet eff effects :
  settle p eff = Unsettled -> settlements p (eff :: effects) = settlements p effects.
Proof. intros H. cbn. rewrite H. reflexivity. Qed.

Lemma settlements_loud eff effects :
  settle p eff <> Unsettled ->
  settlements p (eff :: effects) = S (settlements p effects).
Proof. intros H. cbn. destruct (settle p eff); [contradiction | reflexivity ..]. Qed.

Lemma unsettled_state effects :
  settlements p effects = 0%nat -> promiseState p effects = Unsettled.
Proof.
  induction effects as [|eff earlier IH]; [reflexivity |].
  cbn. destruct (settle p eff) eqn:Heff; try discriminate.
  intros H. rewrite (IH H). reflexivity.
Qed.

Lemma settled_state effects :
  promiseState p effects <> Unsettled -> (1 <= settlements p effects)%nat.
Proof.
  induction effects as [|eff earlier IH]; [intros []; reflexivity |].
  cbn. destruct (promiseState p earlier) eqn:Hst.
  - intros Hs. destruct (settle p eff); [contradiction | lia ..].
  - intros _. assert (1 <= settlements p earlier)%nat by (apply IH; discriminate).
    destruct (settle p eff); lia.
  - intros _. assert (1 <= settlements p earlier)%nat by (apply IH; discriminate).
    destruct (settle p eff); lia.
Qed.

(** A settled promise ignores every later [resolve] and [reject]. *)
Lemma promiseState_sticky eff effects :
  promiseState p effects <> Unsettled ->
  promiseState p (eff :: effects) = promiseState p effects.
Proof. cbn. destruct (promiseState p effects); [intros []|..]; reflexivity. Qed.

Lemma promiseState_first eff effects :
  settlements p effects = 0%nat ->
  promiseState p (eff :: effects) = settle p eff.
Proof. intros H. cbn. rewrite (unsettled_state _ H). reflexivity. Qed.

(** A rejected promise was rejected by some [reject] call of the trace. *)
Lemma rejected_in_trace effects message :
  promiseState p effects = Rejected message -> In (Reject p message) effects.
Proof.
  induction effects as [|eff earlier IH]; [discriminate |].
  cbn. destruct (promiseState p earlier) eqn:Hst.
  - destruct eff as [q v|q m| |]; cbn; try discriminate.
    + destruct (Nat.eqb_spec p q); discriminate.
    + destruct (Nat.eqb_spec p q) as [->|]; [|discriminate].
      intros [= ->]. left. reflexivity.
  - discriminate.
  - intros H. right. apply IH. exact H.
Qed.
End Trace.

(** ** How the table's invariant moves *)

Section Consistency.
Variables (armed : list Timer) (pending : gmap Z Pending) (lastId : Z)
          (promises : nat) (effects : list Effect).
Hypothesis HC : Consistent armed pending lastId promises effects.

(** Effects that settle nothing: sends and log lines. *)
Lemma consistent_quiet eff :
  (forall p, settle p eff = Unsettled) ->
  Consistent armed pending lastId promises (eff :: effects).
Proof.
  intros Hq. destruct HC. constructor; try assumption.
  - intros id e He. rewrite settlements_quiet by apply Hq. eauto.
  - intros p. rewrite settlements_quiet by apply Hq. eauto.
  - intros p Hp. rewrite settlements_quiet by apply Hq. eauto.
  - intros p Hp. rewrite settlements_quiet by apply Hq. eauto.
  - intros p message [->|Hin]; [|eauto].
    specialize (Hq p). rewrite settle_reject in Hq. discriminate.
Qed.

(** A promise that is made and rejected on the spot. *)
Lemma consistent_reject_fresh :
  Consistent armed pending lastId (S promises)
    (Reject promises notConnected :: effects).
Proof.
  destruct HC. constructor; try assumption.
  - intros id e He. destruct (entry_unsettled0 id e He) as [Hlt Hz].
    split; [lia |]. rewrite settlements_quiet; [exact Hz |].
    apply settle_reject_other. lia.
  - intros p. destruct (Nat.eq_dec p promises) as [->|Hne].
    + rewrite settlements_loud by (rewrite settle_reject; discriminate).
      rewrite fresh_unsettled0 by lia. lia.
    + rewrite settlements_quiet by (apply settle_reject_other; exact Hne). eauto.
  - intros p Hp. destruct (Nat.eq_dec p promises) as [->|Hne].
    + rewrite settlements_loud by (rewrite settle_reject; discriminate). discriminate.
    + rewrite settlements_quiet by (apply settle_reject_other; exact Hne).
      apply unsettled_pending0. lia.
  - intros p Hp. rewrite settlements_quiet by (apply settle_reject_other; lia).
    apply fresh_unsettled0. lia.
  - intros p message [[= _ <-]|Hin]; [right; reflexivity | eauto].
Qed.

(** A new entry under the next id, with its promise and its timer. *)
Lemma consistent_register due eff :
  (forall tm, In tm armed -> t_id tm <= lastId) ->
  (forall p, settle p eff = Unsettled) ->
  Consistent
    (armed ++ [ {| t_due := due; t_id := lastId + 1; t_promise := promises |} ])
    (<[lastId + 1 := {| promise := promises |}]> pending)
    (lastId + 1) (S promises) (eff :: effects).
Proof.
  intros Hold Hq. destruct HC.
  assert (Hnew : pending !! (lastId + 1) = None).
  { destruct (pending !! (lastId + 1)) as [e|] eqn:He; [|reflexivity].
    apply ids_issued0 in He. lia. }
  constructor.
  - lia.
  - intros id e. rewrite lookup_insert_Some.
    intros [[<- _]|[_ He]]; [|apply ids_issued0 in He]; lia.
  - intros id e. rewrite settlements_quiet by apply Hq. rewrite lookup_insert_Some.
    intros [[_ <-]|[_ He]]; cbn.
    + split; [lia | apply fresh_unsettled0; lia].
    + destruct (entry_unsettled0 id e He). split; [lia | assumption].
  - intros id e. rewrite lookup_insert_Some. intros [[<- _]|[_ He]].
    + eexists. split; [apply in_or_app; right; left; reflexivity | reflexivity].
    + destruct (entry_armed0 id e He) as (tm & Hin & Hid).
      exists tm. split; [apply in_or_app; left; exact Hin | exact Hid].
  - intros tm e Hin. apply in_app_or in Hin as [Hin|[<-|[]]]; cbn.
    + rewrite lookup_insert_ne by (apply Hold in Hin; lia). eauto.
    + rewrite lookup_insert_eq. intros [= <-]. reflexivity.
  - intros id id' e e'. rewrite !lookup_insert_Some.
    intros [[<- <-]|[_ He]] [[<- <-]|[_ He']]; cbn; intros Hp.
    + reflexivity.
    + destruct (entry_unsettled0 _ _ He'). lia.
    + destruct (entry_unsettled0 _ _ He). lia.
    + eauto.
  - intros p. rewrite settlements_quiet by apply Hq. eauto.
  - intros p Hp. rewrite settlements_quiet by apply Hq. intros Hz.
    destruct (Nat.eq_dec p promises) as [->|Hne].
    + exists (lastId + 1), {| promise := promises |}.
      split; [apply lookup_insert_eq | reflexivity].
    + destruct (unsettled_pending0 p ltac:(lia) Hz) as (id & e & He & Hpe).
      exists id, e. split; [|exact Hpe].
      rewrite lookup_insert_ne; [exact He | intros <-; congruence].
  - intros p Hp. rewrite settlements_quiet by apply Hq.
    apply fresh_unsettled0. lia.
  - intros p message [->|Hin]; [|eauto].
    specialize (Hq p). rewrite settle_reject in Hq. discriminate.
Qed.

(** An entry leaves the table together with the one call that settles its
    promise: [resolve] by a reply, or [reject] by its timeout. *)
Lemma consistent_settle id e eff :
  pending !! id = Some e ->
  (exists value, eff = Resolve (promise e) value) \/ eff = Reject (promise e) timedOut ->
  Consistent armed (delete id pending) lastId promises (eff :: effects).
Proof.
  intros He Heff. destruct HC.
  assert (Hloud : settle (promise e) eff <> Unsettled).
  { destruct Heff as [[v ->] | ->];
      [rewrite settle_resolve | rewrite settle_reject]; discriminate. }
  assert (Hother : forall p, p <> promise e -> settle p eff = Unsettled).
  { intros p Hne. destruct Heff as [[v ->] | ->];
      [apply settle_resolve_other | apply settle_reject_other]; exact Hne. }
  constructor.
  - assumption.
  - intros id' e'. rewrite lookup_delete_Some. intros [_ He']. eauto.
  - intros id' e'. rewrite lookup_delete_Some. intros [Hne He'].
    destruct (entry_unsettled0 _ _ He') as [Hlt Hz]. split; [exact Hlt |].
    rewrite settlements_quiet; [exact Hz |]. apply Hother.
    intros Hp. apply Hne. symmetry. eauto.
  - intros id' e'. rewrite lookup_delete_Some. intros [_ He']. eauto.
  - intros tm e' Hin. rewrite lookup_delete_Some. intros [_ He']. eauto.
  - intros id1 id2 e1 e2. rewrite !lookup_delete_Some. intros [_ H1] [_ H2]. eauto.
  - intros p. destruct (Nat.eq_dec p (promise e)) as [->|Hne].
    + rewrite settlements_loud by exact Hloud.
      destruct (entry_unsettled0 _ _ He) as [_ ->]. lia.
    + rewrite settlements_quiet by (apply Hother; exact Hne). eauto.
  - intros p Hp. destruct (Nat.eq_dec p (promise e)) as [->|Hne].
    + rewrite settlements_loud by exact Hloud. discriminate.
    + rewrite settlements_quiet by (apply Hother; exact Hne). intros Hz.
      destruct (unsettled_pending0 p Hp Hz) as (id' & e' & He' & Hpe).
      exists id', e'. split; [|exact Hpe].
      rewrite lookup_delete_Some. split; [|exact He'].
      intros <-. rewrite He in He'. injection He' as <-. congruence.
  - intros p Hp. rewrite settlements_quiet; [eauto |]. apply Hother.
    destruct (entry_unsettled0 _ _ He). lia.
  - intros p message [Hin|Hin]; [|eauto].
    destruct Heff as [[v ->] | ->]; [discriminate |].
    injection Hin as _ <-. left. reflexivity.
Qed.
End Consistency.

(** A timer whose request is gone can be forgotten. *)
Lemma consistent_disarm tm armed pending lastId promises effects :
  Consistent (tm :: armed) pending lastId promises effects ->
  pending !! t_id tm = None ->
  Consistent armed pending lastId promises effects.
Proof.
  intros [] Hgone. constructor; try assumption.
  - intros id e He. destruct (entry_armed0 id e He) as (tm' & [<-|Hin] & Hid).
    + congruence.
    + eauto.
  - intros tm' e Hin. apply timer_rejects_entry0. right. exact Hin.
Qed.

(** Only the set of armed timers matters. *)
Lemma consistent_same_timers armed armed' pending lastId promises effects :
  (forall tm, In tm armed <-> In tm armed') ->
  Consistent armed pending lastId promises effects ->
  Consistent armed' pending lastId promises effects.
Proof.
  intros Hsame []. constructor; try assumption.
  - intros id e He. destruct (entry_armed0 id e He) as (tm & Hin & Hid).
    exists tm. split; [apply Hsame; exact Hin | exact Hid].
  - intros tm e Hin. apply timer_rejects_entry0, Hsame, Hin.
Qed.

(** ** The timeout callback and the clock *)

Lemma fire_cons tm due s : fire (tm :: due) s = fire due (onTimeout tm s).
Proof. reflexivity. Qed.

Lemma onTimeout_pending tm s :
  pendingRequests (onTimeout tm s) = delete (t_id tm) (pendingRequests s).
Proof.
  unfold onTimeout. destruct (pendingRequests s !! t_id tm) eqn:He; cbn.
  - reflexivity.
  - symmetry. apply delete_id, He.
Qed.

(** The callback touches nothing but the table and the trace. *)
Lemma onTimeout_rest tm s : rest (onTimeout tm s) = rest s.
Proof. unfold onTimeout. destruct (pendingRequests s !! t_id tm); reflexivity. Qed.

Lemma fire_rest due : forall s, rest (fire due s) = rest s.
Proof.
  induction due as [|tm due IH]; intros s; [reflexivity |].
  rewrite fire_cons, IH. apply onTimeout_rest.
Qed.

Lemma fire_pending due : forall s id,
  pendingRequests (fire due s) !! id =
    if existsb (Z.eqb id) (map t_id due) then None else pendingRequests s !! id.
Proof.
  induction due as [|tm due IH]; intros s id; [reflexivity |].
  rewrite fire_cons, IH, onTimeout_pending. cbn [map existsb].
  destruct (existsb (Z.eqb id) (map t_id due)); [rewrite orb_true_r; reflexivity |].
  rewrite orb_false_r. destruct (Z.eqb_spec id (t_id tm)) as [->|Hne].
  - apply lookup_delete_eq.
  - apply lookup_delete_ne. congruence.
Qed.

Lemma fire_removes due s tm :
  In tm due -> pendingRequests (fire due s) !! t_id tm = None.
Proof.
  intros Hin. rewrite fire_pending.
  replace (existsb (Z.eqb (t_id tm)) (map t_id due)) with true; [reflexivity |].
  symmetry. apply existsb_exists. exists (t_id tm).
  split; [apply in_map, Hin | apply Z.eqb_refl].
Qed.

Lemma fire_keeps due s id :
  ~ In id (map t_id due) ->
  pendingRequests (fire due s) !! id = pendingRequests s !! id.
Proof.
  intros Hout. rewrite fire_pending.
  destruct (existsb (Z.eqb id) (map t_id due)) eqn:Hex; [|reflexivity].
  apply existsb_exists in Hex as (id' & Hin & Heq).
  apply Z.eqb_eq in Heq as <-. contradiction.
Qed.

Lemma onTimeout_consistent tm armed s :
  Consistent (tm :: armed) (pendingRequests s) (requestId s) (promiseCount s) (trace s) ->
  let s' := onTimeout tm s in
  Consistent armed (pendingRequests s') (requestId s') (promiseCount s') (trace s').
Proof.
  intros HC. cbv zeta. unfold onTimeout.
  destruct (pendingRequests s !! t_id tm) as [e|] eqn:He; cbn.
  - apply (consistent_disarm tm); [|apply lookup_delete_eq].
    apply (consistent_settle _ _ _ _ _ HC _ e _ He). right.
    rewrite (timer_rejects_entry _ _ _ _ _ HC tm e (or_introl eq_refl) He).
    reflexivity.
  - apply (consistent_disarm tm); assumption.
Qed.

Lemma fire_consistent due : forall later s,
  Consistent (due ++ later) (pendingRequests s) (requestId s) (promiseCount s) (trace s) ->
  let s' := fire due s in
  Consistent later (pendingRequests s') (requestId s') (promiseCount s') (trace s').
Proof.
  induction due as [|tm due IH]; intros later s HC; [exact HC |].
  rewrite fire_cons. apply IH. apply onTimeout_consistent. exact HC.
Qed.

(** A promise that is settled stays as it is while timers fire. *)
Lemma fire_sticky p due : forall s,
  promiseState p (trace s) <> Unsettled ->
  promiseState p (trace (fire due s)) = promiseState p (trace s).
Proof.
  induction due as [|tm due IH]; intros s Hs; [reflexivity |].
  rewrite fire_cons.
  assert (Hone : promiseState p (trace (onTimeout tm s)) = promiseState p (trace s)).
  { unfold onTimeout. destruct (pendingRequests s !! t_id tm); [|reflexivity].
    cbn [trace emit setPending]. apply promiseState_sticky, Hs. }
  rewrite IH; [exact Hone | rewrite Hone; exact Hs].
Qed.

(** A due timer whose request is still in the table rejects it. *)
Lemma fire_rejects due : forall later s tm e,
  Consistent (due ++ later) (pendingRequests s) (requestId s) (promiseCount s) (trace s) ->
  NoDup (map t_id due) ->
  In tm due ->
  pendingRequests s !! t_id tm = Some e ->
  promiseState (promise e) (trace (fire due s)) = Rejected timedOut.
Proof.
  induction due as [|tm0 due IH]; intros later s tm e HC Hnd Hin He; [destruct Hin |].
  rewrite fire_cons. cbn [map] in Hnd. apply NoDup_cons in Hnd as [Hfirst Hnd].
  destruct Hin as [->|Hin].
  - assert (Hnow : promiseState (promise e) (trace (onTimeout tm s)) = Rejected timedOut).
    { unfold onTimeout. rewrite He. cbn [trace emit setPending].
      rewrite promiseState_first
        by (apply (entry_unsettled _ _ _ _ _ HC _ _ He)).
      rewrite (timer_rejects_entry _ _ _ _ _ HC tm e (or_introl eq_refl) He).
      apply settle_reject. }
    rewrite fire_sticky; [exact Hnow | rewrite Hnow; discriminate].
  - apply (IH later _ tm e).
    + apply (onTimeout_consistent tm0 (due ++ later) s HC).
    + exact Hnd.
    + exact Hin.
    + rewrite onTimeout_pending, lookup_delete_ne; [exact He |].
      intros Heq. apply Hfirst. rewrite Heq. apply list_elem_of_In, in_map, Hin.
Qed.

Lemma NoDup_map_filter {A B : Type} (f : A -> B) (keep : A -> bool) (l : list A) :
  NoDup (map f l) -> NoDup (map f (List.filter keep l)).
Proof.
  induction l as [|a l IH]; cbn; [trivial |].
  intros Hnd. apply NoDup_cons in Hnd as [Ha Hnd].
  destruct (keep a); cbn; [|apply IH, Hnd].
  apply NoDup_cons. split; [|apply IH, Hnd].
  intros Hin. apply Ha. apply list_elem_of_In in Hin.
  apply in_map_iff in Hin as (b & Hb & Hin).
  apply filter_In in Hin as [Hin _]. apply list_elem_of_In, in_map_iff. eauto.
Qed.

Lemma due_or_later t (armed : list Timer) tm :
  In tm armed <->
  In tm (List.filter (isDue t) armed ++ List.filter (fun tm => negb (isDue t tm)) armed).
Proof.
  rewrite in_app_iff, !filter_In. destruct (isDue t tm); cbn; intuition congruence.
Qed.

(** ** The message handler *)

(** Whoever has an [id] property to read has a [result] property to read. *)
Lemma getProp_result message id :
  getProp message "id" = Returned id ->
  exists result, getProp message "result" = Returned result.
Proof. destruct message; cbn; try discriminate; eauto. Qed.

Lemma mapHas_true {A : Type} (m : gmap Z A) id :
  mapHas m id = true <-> exists key, id = JNumber key /\ is_Some (m !! key).
Proof.
  unfold mapHas. split.
  - destruct id; cbn; try discriminate.
    destruct (m !! n) eqn:Hn; [|discriminate]. intros _. exists n. split; eauto.
  - intros (key & -> & [a Ha]). cbn. rewrite Ha. reflexivity.
Qed.

(** A message whose id is no key of the table changes nothing. *)
Lemma onMessage_ignored message id s :
  getProp message "id" = Returned id ->
  ~ matchesPending s id ->
  onMessage (Some message) s = s.
Proof.
  intros Hid Hno. unfold onMessage. rewrite Hid.
  destruct (mapHas (pendingRequests s) id) eqn:Hhas.
  - exfalso. apply Hno. apply mapHas_true in Hhas. exact Hhas.
  - rewrite andb_false_r. reflexivity.
Qed.

(** A message whose id is a key of the table removes the entry and calls its
    [resolve] with [message.result]. *)
Lemma onMessage_taken message key entry result s :
  getProp message "id" = Returned (JNumber key) ->
  getProp message "result" = Returned result ->
  key <> 0 ->
  pendingRequests s !! key = Some entry ->
  onMessage (Some message) s =
    emit (Resolve (promise entry) result)
      (setPending (delete key (pendingRequests s)) s).
Proof.
  intros Hid Hres Hnz He. unfold onMessage. rewrite Hid, Hres.
  unfold mapHas, mapGet. cbn. rewrite He.
  destruct (Z.eqb_spec key 0); [contradiction | reflexivity].
Qed.

(** The three things the handler can do. *)
Lemma onMessage_cases data s :
  onMessage data s = s \/
  onMessage data s = emit (ConsoleError "[MCP] Error parsing message:") s \/
  exists key entry result,
    pendingRequests s !! key = Some entry /\
    onMessage data s =
      emit (Resolve (promise entry) result)
        (setPending (delete key (pendingRequests s)) s).
Proof.
  unfold onMessage. destruct data as [message|]; [|auto].
  destruct (getProp message "id") as [id|] eqn:Hid; [|auto].
  destruct (truthy id && mapHas (pendingRequests s) id) eqn:Htest; [|auto].
  apply andb_true_iff in Htest as [_ Hhas].
  apply mapHas_true in Hhas as (key & -> & [entry He]).
  unfold mapGet, mapDelete. cbn. rewrite He.
  destruct (getProp message "result") as [result|]; [|auto].
  right. right. exists key, entry, result. auto.
Qed.

(** ** The invariant holds in every state the server can reach *)

Lemma invariant_initial : Invariant initial.
Proof.
  constructor; cbn.
  - constructor; cbn; intros;
      try match goal with
        | H : ∅ !! _ = Some _ |- _ => rewrite lookup_empty in H; discriminate
        end;
      try lia; try tauto.
  - intros tm [].
  - constructor.
  - intros tm [].
  - discriminate.
  - intros ws Hws. apply not_elem_of_empty in Hws. destruct Hws.
Qed.

Lemma invariant_onConnection s : Invariant s -> Invariant (onConnection s).
Proof.
  intros []. constructor; cbn; try assumption.
  - apply consistent_quiet; [assumption | reflexivity].
  - intros ws [= <-]. apply elem_of_union. left. apply elem_of_singleton. reflexivity.
  - intros ws Hws. apply elem_of_union in Hws as [Hws|Hws].
    + apply elem_of_singleton in Hws. lia.
    + apply inv_sockets0 in Hws. lia.
Qed.

Lemma invariant_onClose ws s : Invariant s -> Invariant (onClose ws s).
Proof.
  intros []. constructor; cbn; try assumption.
  - apply consistent_quiet; [assumption | reflexivity].
  - discriminate.
  - intros ws' Hws. apply elem_of_difference in Hws as [Hws _]. apply inv_sockets0, Hws.
Qed.

Lemma invariant_onMessage data s : Invariant s -> Invariant (onMessage data s).
Proof.
  intros Hinv.
  destruct (onMessage_cases data s) as [-> | [-> | (key & entry & result & He & ->)]].
  - exact Hinv.
  - destruct Hinv. constructor; cbn; try assumption.
    apply consistent_quiet; [assumption | reflexivity].
  - destruct Hinv. constructor; cbn; try assumption.
    apply (consistent_settle _ _ _ _ _ inv_consistent0 key entry _ He).
    left. eauto.
Qed.

Lemma invariant_sendToCanvas command params s :
  Invariant s -> Invariant (snd (sendToCanvas command params s)).
Proof.
  intros []. unfold sendToCanvas. cbn [newPromise].
  cbn [canvasClient]. destruct (canvasClient s) as [ws|] eqn:Hslot; cbn.
  - constructor; cbn; try assumption.
    + apply consistent_register; [assumption.. | reflexivity].
    + intros tm Hin. apply in_app_or in Hin as [Hin|[<-|[]]]; cbn; [|lia].
      apply inv_timer_ids0 in Hin. lia.
    + rewrite map_app. cbn. apply NoDup_app. split; [assumption |]. split.
      * intros id Hin Hnew. apply list_elem_of_In in Hin.
        apply in_map_iff in Hin as (tm & <- & Hin).
        apply list_elem_of_singleton in Hnew.
        apply inv_timer_ids0 in Hin. lia.
      * apply NoDup_singleton.
    + intros tm Hin. apply in_app_or in Hin as [Hin|[<-|[]]]; cbn.
      * apply inv_deadlines0, Hin.
      * unfold TIMEOUT. lia.
  - constructor; cbn; try assumption.
    apply consistent_reject_fresh. assumption.
Qed.

Lemma invariant_advance t s : now s <= t -> Invariant s -> Invariant (advance t s).
Proof.
  intros Ht []. unfold advance.
  set (due := List.filter (isDue t) (timers s)).
  set (later := List.filter (fun tm => negb (isDue t tm)) (timers s)).
  set (s0 := setClock t later s).
  pose proof (fire_rest due s0) as Hrest. unfold rest in Hrest.
  injection Hrest as Hc Hr Hcl Hsc Hpc Htm Hnow.
  assert (Hlater : forall tm, In tm later -> In tm (timers s) /\ t < t_due tm).
  { intros tm Hin. apply filter_In in Hin as [Hin Hd]. split; [exact Hin |].
    unfold isDue in Hd. apply negb_true_iff, Z.leb_gt in Hd. exact Hd. }
  constructor.
  - rewrite Htm. cbn [timers setClock s0].
    apply (fire_consistent due later s0).
    apply (consistent_same_timers (timers s)); [apply due_or_later | exact inv_consistent0].
  - rewrite Htm, Hr. cbn. intros tm Hin. apply inv_timer_ids0, Hlater, Hin.
  - rewrite Htm. cbn. apply NoDup_map_filter, inv_timer_nodup0.
  - rewrite Htm, Hnow. cbn. intros tm Hin. destruct (Hlater tm Hin) as [Hin' Hlt].
    apply inv_deadlines0 in Hin'. lia.
  - rewrite Hc, Hcl. cbn. assumption.
  - rewrite Hcl, Hsc. cbn. assumption.
Qed.

Lemma invariant_step s e : Invariant s -> Invariant (step s e).
Proof.
  intros Hinv. destruct e as [|ws data|ws|command params|t]; cbn [step].
  - apply invariant_onConnection, Hinv.
  - destruct (decide (ws ∈ clients s)); [apply invariant_onMessage|]; exact Hinv.
  - destruct (decide (ws ∈ clients s)); [apply invariant_onClose|]; exact Hinv.
  - apply invariant_sendToCanvas, Hinv.
  - destruct (Z.leb_spec (now s) t); [apply invariant_advance; assumption | exact Hinv].
Qed.

Lemma invariant_run events : forall s, Invariant s -> Invariant (run events s).
Proof.
  induction events as [|e events IH]; intros s Hinv; [exact Hinv |].
  apply IH, invariant_step, Hinv.
Qed.

Lemma invariant_reachable events : Invariant (run events initial).
Proof. apply invariant_run, invariant_initial. Qed.

(** ** Replies and deadlines, in a state that satisfies the invariant *)

Lemma timer_of_id (armed : list Timer) tm tm' :
  NoDup (map t_id armed) -> In tm armed -> In tm' armed -> t_id tm = t_id tm' -> tm = tm'.
Proof.
  induction armed as [|a armed IH]; cbn; [intros _ [] |].
  intros Hnd. apply NoDup_cons in Hnd as [Ha Hnd].
  intros [->|Hin] [->|Hin'] Hid.
  - reflexivity.
  - exfalso. apply Ha. rewrite Hid. apply list_elem_of_In, in_map, Hin'.
  - exfalso. apply Ha. rewrite <- Hid. apply list_elem_of_In, in_map, Hin.
  - apply IH; assumption.
Qed.

Section Settling.
Variable s : State.
Hypothesis Hinv : Invariant s.

(** The first matching reply takes the entry out and fulfils its promise
    with the payload, whatever the payload is. *)
Lemma reply_resolves ws id e result :
  ws ∈ clients s ->
  pendingRequests s !! id = Some e ->
  let s' := step s (Message ws (Some (reply (JNumber id) result))) in
  pendingRequests s' = delete id (pendingRequests s) /\
  trace s' = Resolve (promise e) result :: trace s /\
  promiseState (promise e) (trace s') = Fulfilled result /\
  settlements (promise e) (trace s') = 1%nat.
Proof.
  intros Hws He. cbv zeta. cbn [step]. rewrite decide_True by exact Hws.
  destruct Hinv as [HC _ _ _ _ _].
  rewrite (onMessage_taken _ id e result); try reflexivity; try exact He.
  2: { apply (ids_issued _ _ _ _ _ HC) in He. lia. }
  cbn [pendingRequests trace emit setPending].
  destruct (entry_unsettled _ _ _ _ _ HC _ _ He) as [_ Hz].
  split; [reflexivity |]. split; [reflexivity |]. split.
  - rewrite promiseState_first by exact Hz. apply settle_resolve.
  - rewrite settlements_loud by (rewrite settle_resolve; discriminate).
    rewrite Hz. reflexivity.
Qed.

(** Once the clock has reached a request's deadline the entry is gone and
    the promise is rejected with the timeout error. *)
Lemma deadline_rejects tm e t :
  In tm (timers s) ->
  pendingRequests s !! t_id tm = Some e ->
  t_due tm <= t ->
  let s' := step s (Tick t) in
  pendingRequests s' !! t_id tm = None /\
  promiseState (promise e) (trace s') = Rejected timedOut.
Proof.
  intros Hin He Hdue. cbv zeta. cbn [step].
  destruct Hinv as [HC _ Hnd Hdl _ _].
  pose proof (Hdl tm Hin) as Htm.
  destruct (Z.leb_spec (now s) t) as [_|Hlt]; [|lia].
  unfold advance.
  assert (Hfires : In tm (List.filter (isDue t) (timers s))).
  { apply filter_In. split; [exact Hin |]. unfold isDue. apply Z.leb_le, Hdue. }
  split.
  - apply fire_removes, Hfires.
  - eapply fire_rejects; [| apply NoDup_map_filter, Hnd | exact Hfires | exact He].
    apply (consistent_same_timers (timers s)); [apply due_or_later | exact HC].
Qed.

(** Before the deadline the clock leaves the request alone. *)
Lemma before_deadline_pending tm e t :
  In tm (timers s) ->
  pendingRequests s !! t_id tm = Some e ->
  t < t_due tm ->
  let s' := step s (Tick t) in
  pendingRequests s' !! t_id tm = Some e /\
  promiseState (promise e) (trace s') = Unsettled.
Proof.
  intros Hin He Hearly. cbv zeta.
  assert (Hkept : pendingRequests (step s (Tick t)) !! t_id tm = Some e).
  { cbn [step]. destruct (Z.leb_spec (now s) t) as [_|_]; [|exact He].
    unfold advance. rewrite fire_keeps; [exact He |].
    intros Hid. apply in_map_iff in Hid as (tm' & Hid & Hin').
    apply filter_In in Hin' as [Hin' Hd].
    assert (tm' = tm) as ->
      by (apply (timer_of_id (timers s)); [apply Hinv | assumption..]).
    unfold isDue in Hd. apply Z.leb_le in Hd. lia. }
  split; [exact Hkept |].
  pose proof (invariant_step s (Tick t) Hinv) as [HC' _ _ _ _ _].
  apply unsettled_state. apply (entry_unsettled _ _ _ _ _ HC' _ _ Hkept).
Qed.

(** When the timeout has elapsed since the present moment, the table is
    empty and every promise has been settled exactly once. *)
Lemma all_settled_after_timeout :
  let s' := step s (Tick (now s + TIMEOUT)) in
  pendingRequests s' = ∅ /\
  forall p, (p < promiseCount s)%nat -> settlements p (trace s') = 1%nat.
Proof.
  cbv zeta.
  assert (Hempty : pendingRequests (step s (Tick (now s + TIMEOUT))) = ∅).
  { apply map_empty. intros id.
    destruct (pendingRequests s !! id) as [e|] eqn:He.
    - destruct Hinv as [HC _ _ Hdl _ _].
      destruct (entry_armed _ _ _ _ _ HC id e He) as (tm & Hin & <-).
      apply (deadline_rejects tm e); [exact Hin | exact He | apply Hdl, Hin].
    - cbn [step]. destruct (Z.leb_spec (now s) (now s + TIMEOUT)); [|exact He].
      unfold advance. rewrite fire_pending. cbn [pendingRequests setClock].
      rewrite He. destruct (existsb _ _); reflexivity. }
  split; [exact Hempty |]. intros p Hp.
  pose proof (invariant_step s (Tick (now s + TIMEOUT)) Hinv) as [HC' _ _ _ _ _].
  assert (Hcount : promiseCount (step s (Tick (now s + TIMEOUT))) = promiseCount s).
  { cbn [step]. destruct (Z.leb_spec (now s) (now s + TIMEOUT)); [|reflexivity].
    unfold advance.
    pose proof (fire_rest (List.filter (isDue (now s + TIMEOUT)) (timers s))
      (setClock (now s + TIMEOUT)
         (List.filter (fun tm => negb (isDue (now s + TIMEOUT) tm)) (timers s)) s)) as Hr.
    unfold rest in Hr. injection Hr as _ _ _ _ Hpc _ _. exact Hpc. }
  pose proof (settled_once _ _ _ _ _ HC' p) as Hle.
  destruct (settlements p (trace (step s (Tick (now s + TIMEOUT))))) as [|[|n]] eqn:Hn;
    [| reflexivity | lia].
  destruct (unsettled_pending _ _ _ _ _ HC' p) as (id & e & He & _);
    [rewrite Hcount; exact Hp | exact Hn |].
  rewrite Hempty, lookup_empty in He. discriminate.
Qed.
End Settling.

(** ** Promises do not steer the server

    Which ids are issued, what is sent and when timers fire depends on the
    variables of the module and on the keys of the table, never on the
    promises behind them. *)

Lemma same_keys_delete (ma mb : gmap Z Pending) key :
  (forall id, is_Some (ma !! id) <-> is_Some (mb !! id)) ->
  forall id, is_Some (delete key ma !! id) <-> is_Some (delete key mb !! id).
Proof.
  intros Hsame id. destruct (decide (key = id)) as [->|Hne].
  - rewrite !lookup_delete_eq. reflexivity.
  - rewrite !lookup_delete_ne by exact Hne. apply Hsame.
Qed.

Lemma same_keys_lookup (ma mb : gmap Z Pending) id :
  (forall id, is_Some (ma !! id) <-> is_Some (mb !! id)) ->
  (exists ea eb, ma !! id = Some ea /\ mb !! id = Some eb) \/
  (ma !! id = None /\ mb !! id = None).
Proof.
  intros Hsame. specialize (Hsame id).
  destruct (ma !! id) as [ea|], (mb !! id) as [eb|]; eauto.
  - destruct Hsame as [H _]. destruct H as [? [=]]. eauto.
  - destruct Hsame as [_ H]. destruct H as [? [=]]. eauto.
Qed.

Lemma sameCourse_onTimeout tma tmb a b :
  t_id tma = t_id tmb -> SameCourse a b ->
  SameCourse (onTimeout tma a) (onTimeout tmb b).
Proof.
  intros Hid Hab. pose proof Hab as [].
  unfold onTimeout. rewrite Hid.
  destruct (same_keys_lookup _ _ (t_id tmb) same_keys0)
    as [(ea & eb & -> & ->) | [-> ->]]; [|exact Hab].
  constructor; cbn; try assumption. apply same_keys_delete, same_keys0.
Qed.

Lemma sameCourse_fire la : forall lb a b,
  map t_id la = map t_id lb -> SameCourse a b ->
  SameCourse (fire la a) (fire lb b).
Proof.
  induction la as [|tma la IH]; intros [|tmb lb] a b Hids Hab; try discriminate.
  - exact Hab.
  - injection Hids as Hid Hids. rewrite !fire_cons.
    apply IH; [exact Hids |]. apply sameCourse_onTimeout; assumption.
Qed.

Lemma same_timers_filter (keep : Z -> bool) (la : list Timer) : forall lb,
  map (fun tm => (t_due tm, t_id tm)) la = map (fun tm => (t_due tm, t_id tm)) lb ->
  let kept := List.filter (fun tm => keep (t_due tm)) in
  map (fun tm => (t_due tm, t_id tm)) (kept la)
    = map (fun tm => (t_due tm, t_id tm)) (kept lb).
Proof.
  induction la as [|tma la IH]; intros [|tmb lb] Hkeys; try discriminate; [reflexivity |].
  cbn in Hkeys. injection Hkeys as Hdue Hid Hkeys. cbn. rewrite Hdue.
  destruct (keep (t_due tmb)); cbn; [rewrite Hdue, Hid; f_equal |]; apply IH, Hkeys.
Qed.

Lemma keys_ids (la lb : list Timer) :
  map (fun tm => (t_due tm, t_id tm)) la = map (fun tm => (t_due tm, t_id tm)) lb ->
  map t_id la = map t_id lb.
Proof.
  intros H. apply (f_equal (map snd)) in H. rewrite !map_map in H. exact H.
Qed.

Lemma sameCourse_advance t a b : SameCourse a b -> SameCourse (advance t a) (advance t b).
Proof.
  intros Hab. pose proof Hab as []. unfold advance.
  apply sameCourse_fire.
  - apply keys_ids. apply (same_timers_filter (fun due => due <=? t)), same_timers0.
  - constructor; cbn; try assumption; try reflexivity.
    apply (same_timers_filter (fun due => negb (due <=? t))), same_timers0.
Qed.

Lemma mapHas_same (ma mb : gmap Z Pending) id :
  (forall id, is_Some (ma !! id) <-> is_Some (mb !! id)) -> mapHas ma id = mapHas mb id.
Proof.
  intros Hsame. unfold mapHas. destruct (asKey id) as [key|]; [|reflexivity]. cbn.
  destruct (same_keys_lookup _ _ key Hsame) as [(ea & eb & -> & ->) | [-> ->]]; reflexivity.
Qed.

Lemma sameCourse_onMessage data a b :
  SameCourse a b -> SameCourse (onMessage data a) (onMessage data b).
Proof.
  intros Hab. pose proof Hab as [].
  assert (Hcaught : forall line, SameCourse (emit (ConsoleError line) a) (emit (ConsoleError line) b))
    by (intros line; constructor; cbn; assumption).
  unfold onMessage. destruct data as [message|]; [|apply Hcaught].
  destruct (getProp message "id") as [id|]; [|apply Hcaught].
  rewrite (mapHas_same _ _ id same_keys0).
  destruct (truthy id && mapHas (pendingRequests b) id) eqn:Htest; [|exact Hab].
  apply andb_true_iff in Htest as [_ Hhas].
  apply mapHas_true in Hhas as (key & -> & _).
  unfold mapGet, mapDelete. cbn.
  destruct (same_keys_lookup _ _ key same_keys0) as [(ea & eb & -> & ->) | [-> ->]];
    [|apply Hcaught].
  destruct (getProp message "result") as [result|]; [|apply Hcaught].
  constructor; cbn; try assumption. apply same_keys_delete, same_keys0.
Qed.

Lemma sameCourse_sendToCanvas command params a b :
  SameCourse a b ->
  SameCourse (snd (sendToCanvas command params a)) (snd (sendToCanvas command params b)).
Proof.
  intros []. unfold sendToCanvas. cbn [newPromise canvasClient].
  rewrite same_client0. destruct (canvasClient b) as [ws|]; cbn.
  - constructor; cbn; rewrite ?same_requestId0, ?same_now0, ?same_sent0;
      try assumption; try reflexivity.
    + intros id. destruct (decide (requestId b + 1 = id)) as [->|Hne].
      * rewrite !lookup_insert_eq. split; eauto.
      * rewrite !lookup_insert_ne by exact Hne. apply same_keys0.
    + unfold timerKeys in same_timers0. rewrite !map_app, same_timers0. reflexivity.
  - constructor; cbn; try assumption; try reflexivity; exact same_timers0.
Qed.

Lemma sameCourse_step a b e : SameCourse a b -> SameCourse (step a e) (step b e).
Proof.
  intros Hab. pose proof Hab as [].
  destruct e as [|ws data|ws|command params|t]; cbn [step].
  - constructor; cbn; try assumption; rewrite ?same_clients0, ?same_socketCount0; reflexivity.
  - rewrite same_clients0. destruct (decide (ws ∈ clients b)); [|exact Hab].
    apply sameCourse_onMessage, Hab.
  - rewrite same_clients0. destruct (decide (ws ∈ clients b)); [|exact Hab].
    constructor; cbn; try assumption; rewrite ?same_clients0; reflexivity.
  - apply sameCourse_sendToCanvas, Hab.
  - rewrite same_now0. destruct (now b <=? t); [|exact Hab].
    apply sameCourse_advance, Hab.
Qed.

Lemma sameCourse_run events : forall a b,
  SameCourse a b -> SameCourse (run events a) (run events b).
Proof.
  induction events as [|e events IH]; intros a b Hab; [exact Hab |].
  apply IH, sameCourse_step, Hab.
Qed.

(** ** Submitting without a renderer *)

Lemma unavailable_rejects command params s :
  Invariant s ->
  canvasClient s = None ->
  let p := fst (sendToCanvas command params s) in
  let s' := snd (sendToCanvas command params s) in
  promiseState p (trace s') = Rejected notConnected /\
  trace s' = Reject p notConnected :: trace s /\
  requestId s' = requestId s /\
  pendingRequests s' = pendingRequests s /\
  timers s' = timers s /\
  now s' = now s /\
  SameCourse s' s.
Proof.
  intros [HC _ _ _ _ _] Hslot. cbv zeta. unfold sendToCanvas.
  cbn [newPromise canvasClient]. rewrite Hslot. cbn.
  split.
  { rewrite (unsettled_state _ _ (fresh_unsettled _ _ _ _ _ HC _ (Nat.le_refl _))).
    rewrite Nat.eqb_refl. reflexivity. }
  do 5 (split; [reflexivity |]). constructor; cbn; rewrite ?Hslot; reflexivity.
Qed.

(** ** What does not touch the slot *)

Lemma onMessage_slot data s :
  canvasClient (onMessage data s) = canvasClient s /\
  clients (onMessage data s) = clients s.
Proof.
  destruct (onMessage_cases data s) as [-> | [-> | (key & entry & result & _ & ->)]];
    split; reflexivity.
Qed.

Lemma sendToCanvas_slot command params s :
  canvasClient (snd (sendToCanvas command params s)) = canvasClient s /\
  clients (snd (sendToCanvas command params s)) = clients s.
Proof.
  unfold sendToCanvas. cbn [newPromise canvasClient].
  destruct (canvasClient s) eqn:Hslot; cbn; rewrite ?Hslot; split; reflexivity.
Qed.

Lemma advance_slot t s :
  canvasClient (advance t s) = canvasClient s /\ clients (advance t s) = clients s.
Proof.
  unfold advance.
  pose proof (fire_rest (List.filter (isDue t) (timers s))
    (setClock t (List.filter (fun tm => negb (isDue t tm)) (timers s)) s)) as Hr.
  unfold rest in Hr. injection Hr as Hc _ Hcl _ _ _ _. rewrite Hc, Hcl.
  split; reflexivity.
Qed.

(** With no new connection, an empty slot stays empty, and a socket that
    does not close stays open. *)
Lemma slot_stays_empty ws later : forall s,
  forallb (quiet ws) later = true ->
  ws ∈ clients s ->
  canvasClient s = None ->
  ws ∈ clients (run later s) /\ canvasClient (run later s) = None.
Proof.
  induction later as [|e later IH]; intros s Hq Hopen Hslot; [split; assumption |].
  cbn [forallb] in Hq. apply andb_true_iff in Hq as [He Hq].
  cbn [run fold_left]. apply IH; [exact Hq | |];
    destruct e as [|ws' data|ws'|command params|t]; cbn [step]; cbn in He;
    try discriminate.
  - destruct (decide (ws' ∈ clients s)); [|exact Hopen].
    rewrite (proj2 (onMessage_slot data s)). exact Hopen.
  - destruct (decide (ws' ∈ clients s)); [|exact Hopen]. cbn.
    apply elem_of_difference. split; [exact Hopen |].
    rewrite elem_of_singleton. intros ->. rewrite Nat.eqb_refl in He. discriminate.
  - rewrite (proj2 (sendToCanvas_slot command params s)). exact Hopen.
  - destruct (now s <=? t); [|exact Hopen].
    rewrite (proj2 (advance_slot t s)). exact Hopen.
  - destruct (decide (ws' ∈ clients s)); [|exact Hslot].
    rewrite (proj1 (onMessage_slot data s)). exact Hslot.
  - destruct (decide (ws' ∈ clients s)); [|exact Hslot]. reflexivity.
  - rewrite (proj1 (sendToCanvas_slot command params s)). exact Hslot.
  - destruct (now s <=? t); [|exact Hslot].
    rewrite (proj1 (advance_slot t s)). exact Hslot.
Qed.

(** ** The claims about the correlation core *)

(** C1.  In every state the server can reach, no promise has been settled
    more than once; a request in the table is unsettled and its timeout is
    armed; the first matching reply removes it and resolves it, the expiry of
    its deadline removes it and rejects it, and once the timeout has elapsed
    the table is empty and every promise has been settled exactly once.  A
    message whose id is the key of no entry (unknown, already resolved, or
    already timed out) leaves the whole state, trace included, as it was. *)
Theorem pending_request_settles_once (events : list Event) :
  let s := run events initial in
  (forall p, (settlements p (trace s) <= 1)%nat) /\
  (forall id e, pendingRequests s !! id = Some e ->
     settlements (promise e) (trace s) = 0%nat /\
     exists tm, In tm (timers s) /\ t_id tm = id /\ t_promise tm = promise e) /\
  (forall ws id e result,
     ws ∈ clients s -> pendingRequests s !! id = Some e ->
     let message := Message ws (Some (reply (JNumber id) result)) in
     let s' := step s message in
     pendingRequests s' !! id = None /\
     trace s' = Resolve (promise e) result :: trace s /\
     settlements (promise e) (trace s') = 1%nat /\
     step s' message = s') /\
  (forall tm e t,
     In tm (timers s) -> pendingRequests s !! t_id tm = Some e -> t_due tm <= t ->
     let s' := step s (Tick t) in
     pendingRequests s' !! t_id tm = None /\
     promiseState (promise e) (trace s') = Rejected timedOut /\
     settlements (promise e) (trace s') = 1%nat /\
     forall ws result,
       step s' (Message ws (Some (reply (JNumber (t_id tm)) result))) = s') /\
  (let s' := step s (Tick (now s + TIMEOUT)) in
   pendingRequests s' = ∅ /\
   forall p, (p < promiseCount s)%nat -> settlements p (trace s') = 1%nat) /\
  (forall ws message id,
     getProp message "id" = Returned id -> ~ matchesPending s id ->
     step s (Message ws (Some message)) = s).
Proof.
  cbv zeta. pose proof (invariant_reachable events) as Hinv.
  set (s := run events initial) in *.
  assert (Hgone : forall s' ws id result,
            pendingRequests s' !! id = None ->
            step s' (Message ws (Some (reply (JNumber id) result))) = s').
  { intros s' ws id result Hnone. cbn [step].
    destruct (decide (ws ∈ clients s')); [|reflexivity].
    apply (onMessage_ignored _ (JNumber id) s'); [reflexivity |].
    intros (key & Hkey & [entry Hentry]). injection Hkey as <-. congruence. }
  pose proof Hinv as [HC _ _ _ _ _].
  split; [apply (settled_once _ _ _ _ _ HC) |].
  split.
  { intros id e He. split; [apply (entry_unsettled _ _ _ _ _ HC _ _ He) |].
    destruct (entry_armed _ _ _ _ _ HC id e He) as (tm & Hin & <-).
    exists tm. split; [exact Hin |]. split; [reflexivity |].
    apply (timer_rejects_entry _ _ _ _ _ HC tm e Hin He). }
  split.
  { intros ws id e result Hws He.
    destruct (reply_resolves s Hinv ws id e result Hws He) as (Hp & Ht & _ & Hn).
    assert (Hnone : pendingRequests
              (step s (Message ws (Some (reply (JNumber id) result)))) !! id = None)
      by (rewrite Hp; apply lookup_delete_eq).
    split; [exact Hnone |]. split; [exact Ht |]. split; [exact Hn |].
    apply Hgone, Hnone. }
  split.
  { intros tm e t Hin He Hdue.
    destruct (deadline_rejects s Hinv tm e t Hin He Hdue) as [Hnone Hrej].
    split; [exact Hnone |]. split; [exact Hrej |]. split.
    - pose proof (invariant_step s (Tick t) Hinv) as [HC' _ _ _ _ _].
      pose proof (settled_once _ _ _ _ _ HC' (promise e)).
      assert (1 <= settlements (promise e) (trace (step s (Tick t))))%nat
        by (apply settled_state; rewrite Hrej; discriminate).
      lia.
    - intros ws result. apply Hgone, Hnone. }
  split; [apply (all_settled_after_timeout s Hinv) |].
  intros ws message id Hid Hno. cbn [step].
  destruct (decide (ws ∈ clients s)); [|reflexivity].
  apply (onMessage_ignored message id s Hid Hno).
Qed.

Lemma pending_request_settles_once_witness :
  let s := run [Connection; Submit "clear" JNull] initial in
  let message := Message 0%nat (Some (reply (JNumber 1) (JString "ok"))) in
  let s' := step s message in
  pendingRequests s' !! 1 = None /\
  trace s' = Resolve 0%nat (JString "ok") :: trace s /\
  settlements 0%nat (trace s') = 1%nat /\
  step s' message = s'.
Proof.
  refine (proj1 (proj2 (proj2
            (pending_request_settles_once [Connection; Submit "clear" JNull])))
            0%nat 1 {| promise := 0%nat |} (JString "ok") _ _).
  - vm_compute. reflexivity.
  - vm_compute. reflexivity.
Defined.

(** C2.  A command submitted while the slot [canvasClient] is empty is
    rejected at once with the "Canvas not connected" error: the rejection is
    the only effect, the clock, [requestId], [pendingRequests] and the timers
    are as before, and whatever happens next, the ids issued and the
    envelopes sent are those of the run in which the failed submission never
    took place. *)
Theorem unavailable_consumes_no_id
    (events : list Event) (command : string) (params : JsValue) :
  let s := run events initial in
  canvasClient s = None ->
  let p := fst (sendToCanvas command params s) in
  let s' := step s (Submit command params) in
  promiseState p (trace s') = Rejected notConnected /\
  trace s' = Reject p notConnected :: trace s /\
  now s' = now s /\
  requestId s' = requestId s /\
  pendingRequests s' = pendingRequests s /\
  timers s' = timers s /\
  forall later,
    requestId (run later s') = requestId (run later s) /\
    sent (trace (run later s')) = sent (trace (run later s)).
Proof.
  cbv zeta. intros Hslot.
  destruct (unavailable_rejects command params _ (invariant_reachable events) Hslot)
    as (Hrej & Htrace & Hid & Hpending & Htimers & Hnow & Hsame).
  cbn [step]. repeat (split; [assumption |]).
  intros later. destruct (sameCourse_run later _ _ Hsame). split; assumption.
Qed.

Lemma unavailable_consumes_no_id_witness :
  let s := run [Connection; Submit "clear" JNull; Close 0%nat] initial in
  let s' := step s (Submit "undo" JNull) in
  promiseState 1%nat (trace s') = Rejected notConnected /\
  trace s' = Reject 1%nat notConnected :: trace s /\
  now s' = now s /\
  requestId s' = 1 /\
  pendingRequests s' = pendingRequests s /\
  timers s' = timers s /\
  forall later,
    requestId (run later s') = requestId (run later s) /\
    sent (trace (run later s')) = sent (trace (run later s)).
Proof.
  refine (unavailable_consumes_no_id
            [Connection; Submit "clear" JNull; Close 0%nat] "undo" JNull _).
  vm_compute. reflexivity.
Defined.

(** C3.  A submission that finds a renderer registers its request with a
    timer due exactly 10 seconds (10000 ms) after the moment of submission.
    While the clock is short of that deadline the request stays pending; once
    the clock has reached it with no reply taken, the request is removed and
    its promise rejected with "Request timed out".  No promise is ever
    rejected with anything but that error or the "Canvas not connected" one,
    and a reply is resolved with its payload whatever the payload is, an
    error object included. *)
Theorem timeout_is_the_only_late_rejection (events : list Event) :
  let s := run events initial in
  (forall ws command params,
     canvasClient s = Some ws ->
     let p := fst (sendToCanvas command params s) in
     let s' := step s (Submit command params) in
     let id := requestId s + 1 in
     pendingRequests s' !! id = Some {| promise := p |} /\
     timers s' =
       (timers s ++
          [ {| t_due := now s + 10 * 1000; t_id := id; t_promise := p |} ])%list) /\
  (forall tm e t,
     In tm (timers s) -> pendingRequests s !! t_id tm = Some e ->
     let s' := step s (Tick t) in
     (t < t_due tm ->
      pendingRequests s' !! t_id tm = Some e /\
      promiseState (promise e) (trace s') = Unsettled) /\
     (t_due tm <= t ->
      pendingRequests s' !! t_id tm = None /\
      promiseState (promise e) (trace s') = Rejected timedOut)) /\
  (forall p message,
     promiseState p (trace s) = Rejected message ->
     message = timedOut \/ message = notConnected) /\
  (forall ws id e payload,
     ws ∈ clients s -> pendingRequests s !! id = Some e ->
     let s' := step s (Message ws (Some (reply (JNumber id) payload))) in
     pendingRequests s' !! id = None /\
     promiseState (promise e) (trace s') = Fulfilled payload).
Proof.
  cbv zeta. pose proof (invariant_reachable events) as Hinv.
  set (s := run events initial) in *. pose proof Hinv as [HC _ _ _ _ _].
  split.
  { intros ws command params Hslot. cbn [step]. unfold sendToCanvas.
    cbn [newPromise canvasClient]. rewrite Hslot. cbn.
    split; [apply lookup_insert_eq | reflexivity]. }
  split.
  { intros tm e t Hin He. split; intros Ht.
    - apply (before_deadline_pending s Hinv tm e t Hin He Ht).
    - apply (deadline_rejects s Hinv tm e t Hin He Ht). }
  split.
  { intros p message Hrej. apply (rejections _ _ _ _ _ HC p).
    apply rejected_in_trace, Hrej. }
  intros ws id e payload Hws He.
  destruct (reply_resolves s Hinv ws id e payload Hws He) as (Hp & _ & Hf & _).
  split; [rewrite Hp; apply lookup_delete_eq | exact Hf].
Qed.

Lemma timeout_is_the_only_late_rejection_witness :
  let s := run [Tick 250; Connection; Submit "clear" JNull] initial in
  let tm := {| t_due := 10250; t_id := 1; t_promise := 0%nat |} in
  timers s = [tm] /\
  (pendingRequests (step s (Tick 10249)) !! 1 = Some {| promise := 0%nat |} /\
   promiseState 0%nat (trace (step s (Tick 10249))) = Unsettled) /\
  (pendingRequests (step s (Tick 10250)) !! 1 = None /\
   promiseState 0%nat (trace (step s (Tick 10250))) = Rejected timedOut).
Proof.
  split; [vm_compute; reflexivity |].
  pose proof (proj1 (proj2
    (timeout_is_the_only_late_rejection [Tick 250; Connection; Submit "clear" JNull])))
    as Hdeadline.
  split.
  - refine (proj1 (Hdeadline {| t_due := 10250; t_id := 1; t_promise := 0%nat |}
                     {| promise := 0%nat |} 10249 _ _) _).
    + vm_compute. left. reflexivity.
    + vm_compute. reflexivity.
    + reflexivity.
  - refine (proj2 (Hdeadline {| t_due := 10250; t_id := 1; t_promise := 0%nat |}
                     {| promise := 0%nat |} 10250 _ _) _).
    + vm_compute. left. reflexivity.
    + vm_compute. reflexivity.
    + discriminate.
Defined.

(** C10.  Take a state in which the slot holds a second connection while
    a first one is still open.  When the first one closes, the slot is
    emptied although the closing socket is not the one stored there.  From
    then on, as long as no new connection arrives, the second socket stays
    open, the slot stays empty, and every submission is rejected with the
    "Canvas not connected" error without an id being issued or anything being
    sent. *)
Theorem stale_close_empties_slot
    (events later : list Event) (first second : Socket)
    (command : string) (params : JsValue) :
  let s := run events initial in
  first ∈ clients s ->
  canvasClient s = Some second ->
  first <> second ->
  forallb (quiet second) later = true ->
  let closed := step s (Close first) in
  let s' := run later closed in
  let p := fst (sendToCanvas command params s') in
  let failed := step s' (Submit command params) in
  canvasClient closed = None /\
  second ∈ clients closed /\
  second ∈ clients s' /\
  canvasClient s' = None /\
  promiseState p (trace failed) = Rejected notConnected /\
  requestId failed = requestId s' /\
  sent (trace failed) = sent (trace s').
Proof.
  cbv zeta. intros Hfirst Hslot Hne Hquiet.
  pose proof (invariant_reachable events) as Hinv.
  set (s := run events initial) in *.
  assert (Hclosed : step s (Close first) = onClose first s)
    by (cbn [step]; rewrite decide_True by exact Hfirst; reflexivity).
  rewrite Hclosed.
  assert (Hopen : second ∈ clients (onClose first s)).
  { cbn. apply elem_of_difference. split; [apply Hinv, Hslot |].
    rewrite elem_of_singleton. congruence. }
  destruct (slot_stays_empty second later (onClose first s) Hquiet Hopen eq_refl)
    as [Hopen' Hempty].
  split; [reflexivity |]. split; [exact Hopen |]. split; [exact Hopen' |].
  split; [exact Hempty |].
  assert (Hinv' : Invariant (run later (onClose first s))).
  { apply invariant_run. rewrite <- Hclosed. apply invariant_step, Hinv. }
  destruct (unavailable_rejects command params _ Hinv' Hempty)
    as (Hrej & Htrace & Hid & _).
  cbn [step]. split; [exact Hrej |]. split; [exact Hid |].
  rewrite Htrace. reflexivity.
Qed.

Lemma stale_close_empties_slot_witness :
  let s := run [Connection; Connection] initial in
  let closed := step s (Close 0%nat) in
  let s' := run [Tick 5; Message 1%nat (Some (reply (JNumber 7) JNull))] closed in
  let failed := step s' (Submit "clear" JNull) in
  canvasClient s = Some 1%nat /\
  canvasClient closed = None /\
  1%nat ∈ clients closed /\
  1%nat ∈ clients s' /\
  canvasClient s' = None /\
  promiseState 0%nat (trace failed) = Rejected notConnected /\
  requestId failed = requestId s' /\
  sent (trace failed) = sent (trace s').
Proof.
  split; [vm_compute; reflexivity |].
  refine (stale_close_empties_slot [Connection; Connection]
            [Tick 5; Message 1%nat (Some (reply (JNumber 7) JNull))]
            0%nat 1%nat "clear" JNull _ _ _ eq_refl).
  - vm_compute. reflexivity.
  - vm_compute. reflexivity.
  - lia.
Defined.

End BridgeFacts.


(** * More about the executor and the two normalisers *)

Module CanvasExtras.
Import Canvas Renderer CanvasFacts.

Local Open Scope string_scope.

(** ** Which descriptors [createShape] refuses *)

Lemma valid_dec params : valid params \/ ~ valid params.
Proof.
  unfold valid. destruct (in_dec String.string_dec (p_kind params) kind_enum) as [Hin|Hout];
    [|right; tauto].
  destruct (p_points params) as [pts|] eqn:Hp; [left; split; [exact Hin | intros _; left; discriminate] |].
  destruct (p_segments params) as [segs|] eqn:Hs; [left; split; [exact Hin | intros _; right; discriminate] |].
  destruct (String.string_dec (p_kind params) "draw") as [Hd|Hd];
    [right; intros [_ H]; destruct (H (or_introl Hd)); congruence |].
  destruct (String.string_dec (p_kind params) "freehand") as [Hf|Hf];
    [right; intros [_ H]; destruct (H (or_intror Hf)); congruence |].
  left. split; [exact Hin | intros [?|?]; contradiction].
Qed.

Lemma path_without_data i params :
  p_kind params = "draw" \/ p_kind params = "freehand" ->
  p_points params = None -> p_segments params = None ->
  shapePartial i params = inr "Draw shape requires points or segments".
Proof.
  intros Hk Hp Hs. unfold shapePartial. rewrite Hp, Hs.
  destruct Hk as [-> | ->]; reflexivity.
Qed.

(** The three ways the switch can end. *)
Lemma shapePartial_cases i params :
  (valid params /\ exists shape, shapePartial i params = inl shape /\ s_id shape = i) \/
  (~ In (p_kind params) kind_enum /\
   shapePartial i params = inr ("Unknown shape kind: " ++ p_kind params)) \/
  ((p_kind params = "draw" \/ p_kind params = "freehand") /\
   p_points params = None /\ p_segments params = None /\
   shapePartial i params = inr "Draw shape requires points or segments").
Proof.
  destruct (valid_dec params) as [Hv|Hnv]; [left; split; [exact Hv | apply valid_inl, Hv] |].
  right. destruct (in_dec String.string_dec (p_kind params) kind_enum) as [Hin|Hout];
    [right | left; split; [exact Hout | apply unknown_kind_inr, Hout]].
  assert (Hk : p_kind params = "draw" \/ p_kind params = "freehand").
  { destruct (String.string_dec (p_kind params) "draw") as [Hd|Hd]; [left; exact Hd |].
    destruct (String.string_dec (p_kind params) "freehand") as [Hf|Hf]; [right; exact Hf |].
    exfalso. apply Hnv. split; [exact Hin | intros [?|?]; contradiction]. }
  assert (Hp : p_points params = None).
  { destruct (p_points params) eqn:E; [|reflexivity].
    exfalso. apply Hnv. split; [exact Hin | intros _; left; congruence]. }
  assert (Hs : p_segments params = None).
  { destruct (p_segments params) eqn:E; [|reflexivity].
    exfalso. apply Hnv. split; [exact Hin | intros _; right; congruence]. }
  repeat (split; [assumption |]). apply path_without_data; assumption.
Qed.

(** X2.  When a draw/freehand descriptor has [segments], they win over
    [points]: the shape has one segment per given segment, in order, each with
    the type it was given and its points with the pressure filled in; the
    result is the same whatever [points] holds. *)
Theorem draw_segments_take_precedence
    (editor : Editor) (params : Params) (segments : list Segment) :
  p_kind params = "draw" \/ p_kind params = "freehand" ->
  p_segments params = Some segments ->
  exists shape drawn,
    creates editor params shape /\
    s_props shape =
      DrawProps drawn
        (match p_color params with Some c => c | None => "black" end)
        (match p_size params with Some c => c | None => "m" end)
        (match p_fill params with Some c => c | None => "none" end)
        "draw" true
        (match p_isClosed params with Some c => c | None => false end)
        false 1%float /\
    length drawn = length segments /\
    (forall i seg, segments !! i = Some seg ->
       exists pts,
         drawn !! i = Some {| ds_type := seg_type seg; ds_points := pts |} /\
         length pts = length (seg_points seg) /\
         forall j p, seg_points seg !! j = Some p ->
           pts !! j =
             Some {| vz_x := pt_x p; vz_y := pt_y p;
                     vz_z := match pt_z p with Some z => z | None => 0.5%float end |}) /\
    forall points, creates editor (withPoints params points) shape.
Proof.
  intros Hk Hsegs.
  assert (Hsh : forall ps, p_kind ps = p_kind params -> p_segments ps = Some segments ->
            p_x ps = p_x params -> p_y ps = p_y params ->
            p_color ps = p_color params -> p_size ps = p_size params ->
            p_isClosed ps = p_isClosed params -> p_fill ps = p_fill params ->
            shapePartial (idSeed editor) ps =
              inl {| s_id := idSeed editor; s_type := "draw";
                     s_x := p_x params; s_y := p_y params;
                     s_props :=
                       DrawProps (map convertSegment segments)
                         (p_color params ?? "black") (p_size params ?? "m")
                         (p_fill params ?? "none") "draw" true
                         (p_isClosed params ?? false) false 1%float |}).
  { intros ps Hkind Hs Hx Hy Hc Hsz Hcl Hf. unfold shapePartial.
    rewrite Hkind, Hs, Hx, Hy, Hc, Hsz, Hcl, Hf.
    destruct Hk as [-> | ->]; reflexivity. }
  eexists. exists (map convertSegment segments).
  split; [apply createShape_inl, Hsh; auto |].
  split; [reflexivity |]. split; [apply length_map |]. split.
  - intros i seg Hi. exists (map withPressure (seg_points seg)).
    split; [rewrite list_lookup_fmap, Hi; reflexivity |].
    split; [apply length_map |].
    intros j p Hj. rewrite list_lookup_fmap, Hj. reflexivity.
  - intros points. unfold creates. cbn [createShapeId fst snd].
    unfold createShape. cbn [createShapeId].
    rewrite (Hsh (withPoints params points)); auto.
Qed.

Lemma draw_segments_take_precedence_witness :
  exists shape,
    creates emptyEditor
      {| p_kind := "freehand"; p_x := 1%float; p_y := 2%float;
         p_width := None; p_height := None; p_text := None;
         p_endX := None; p_endY := None;
         p_points := Some [ {| pt_x := 9%float; pt_y := 9%float; pt_z := None |} ];
         p_segments :=
           Some [ {| seg_type := straight;
                     seg_points := [ {| pt_x := 0%float; pt_y := 0%float; pt_z := None |} ] |} ];
         p_color := None; p_size := None; p_isClosed := Some true; p_fill := None |}
      shape /\
    s_props shape =
      DrawProps
        [ {| ds_type := straight;
             ds_points := [ {| vz_x := 0%float; vz_y := 0%float; vz_z := 0.5%float |} ] |} ]
        "black" "m" "none" "draw" true true false 1%float.
Proof.
  destruct (draw_segments_take_precedence emptyEditor
              {| p_kind := "freehand"; p_x := 1%float; p_y := 2%float;
                 p_width := None; p_height := None; p_text := None;
                 p_endX := None; p_endY := None;
                 p_points := Some [ {| pt_x := 9%float; pt_y := 9%float; pt_z := None |} ];
                 p_segments :=
                   Some [ {| seg_type := straight;
                             seg_points :=
                               [ {| pt_x := 0%float; pt_y := 0%float; pt_z := None |} ] |} ];
                 p_color := None; p_size := None; p_isClosed := Some true;
                 p_fill := None |}
              _ (or_intror eq_refl) eq_refl)
    as (shape & drawn & Hc & Hp & Hl & Hseg & _).
  exists shape. split; [exact Hc |]. rewrite Hp.
  destruct (Hseg 0 _ eq_refl) as (pts & Hd & Hlp & Hpt).
  pose proof (Hpt 0 _ eq_refl) as H0.
  destruct drawn as [|d [|d' drawn]]; try discriminate Hl.
  destruct pts as [|q [|q' pts]]; try discriminate Hlp.
  injection Hd as ->. injection H0 as ->. reflexivity.
Defined.

(** ** Commands *)

Lemma handled_command editor command :
  In (cmd_command command) commands ->
  forall error, snd (handleCommand editor command) <> Returned (CommandError error).
Proof.
  destruct command as [id cmd params]. cbn [cmd_command]. intros Hin error.
  unfold handleCommand. cbn [cmd_command cmd_params]. simpl in Hin.
  destruct Hin as [<-|[<-|[<-|[<-|[<-|[<-|[<-|[<-|[]]]]]]]]];
    cbn -[createShape createEach deleteShapes getSelectedShapes].
  - destruct (createShape editor (cp_shape params)). discriminate.
  - destruct (cp_shapes params) as [shapes|]; [|discriminate].
    destruct (createEach editor shapes). discriminate.
  - discriminate.
  - discriminate.
  - discriminate.
  - discriminate.
  - discriminate.
  - discriminate.
Qed.

Lemma unhandled_command editor command :
  ~ In (cmd_command command) commands ->
  handleCommand editor command =
    (editor, Returned (CommandError ("Unknown command: " ++ cmd_command command))).
Proof.
  intros Hout. unfold handleCommand.
  switch_on_kind ltac:(exfalso; apply Hout; simpl; intuition congruence).
  reflexivity.
Qed.

(** X3.  [handleCommand] answers [{ error: "Unknown command: ..." }]
    exactly for the commands outside its eight cases, naming the command and
    leaving the editor untouched; for the eight it never does. *)
Theorem unknown_command_exactly_outside_the_cases
    (editor : Editor) (command : CanvasCommand) :
  ((exists error, snd (handleCommand editor command) = Returned (CommandError error))
   <-> ~ In (cmd_command command) commands) /\
  (~ In (cmd_command command) commands ->
   handleCommand editor command =
     (editor, Returned (CommandError ("Unknown command: " ++ cmd_command command)))).
Proof.
  split; [|apply unhandled_command]. split.
  - intros [error Herr] Hin. exact (handled_command editor command Hin error Herr).
  - intros Hout. rewrite (unhandled_command _ _ Hout). eauto.
Qed.

Lemma unknown_command_exactly_outside_the_cases_witness :
  handleCommand emptyEditor
    {| cmd_id := 4; cmd_command := "select_all"; cmd_params := noParams |}
    = (emptyEditor, Returned (CommandError "Unknown command: select_all")).
Proof.
  refine (proj2 (unknown_command_exactly_outside_the_cases emptyEditor
                   {| cmd_id := 4; cmd_command := "select_all"; cmd_params := noParams |}) _).
  cbn. intuition discriminate.
Defined.

(** ** The normaliser of [llmService.ts] *)

(** X7.  For the twelve kinds both normalisers know, the normaliser of
    [llmService.ts] builds the very shape the bridge's [createShape] builds.
    They part on the rest: [frame] is a shape for the former and an unknown
    kind for the latter, and every other kind, [draw] and [freehand] included,
    makes the former create nothing, without any error to report. *)
Theorem normalisers_agree_on_shared_kinds (shapeId : ShapeId) (params : Params) :
  (In (p_kind params) Llm.sharedKinds ->
   exists shape,
     shapePartial shapeId params = inl shape /\
     Llm.shapePartial shapeId params = Some (inl shape)) /\
  (p_kind params = "frame" ->
   shapePartial shapeId params = inr "Unknown shape kind: frame" /\
   exists frame, Llm.shapePartial shapeId params = Some (inr frame)) /\
  (~ In (p_kind params) ("frame" :: Llm.sharedKinds) ->
   Llm.shapePartial shapeId params = None).
Proof.
  split; [|split].
  - destruct params as [kind x y w h t ex ey pts segs c sz cl fl].
    cbn [p_kind]. intros Hin. simpl in Hin.
    destruct Hin as [<-|[<-|[<-|[<-|[<-|[<-|[<-|[<-|[<-|[<-|[<-|[<-|[]]]]]]]]]]]]];
      eexists; split; reflexivity.
  - intros Hk. unfold shapePartial, Llm.shapePartial. rewrite Hk. cbn. eauto.
  - intros Hout. unfold Llm.shapePartial.
    switch_on_kind ltac:(exfalso; apply Hout; simpl; intuition congruence).
    reflexivity.
Qed.

Lemma normalisers_agree_on_shared_kinds_witness :
  (exists shape,
     shapePartial 3 circle_600_400 = inl shape /\
     Llm.shapePartial 3 circle_600_400 = Some (inl shape)) /\
  Llm.shapePartial 3 stroke_10_20 = None.
Proof.
  split.
  - apply (proj1 (normalisers_agree_on_shared_kinds 3 circle_600_400)).
    cbn. tauto.
  - apply (proj2 (proj2 (normalisers_agree_on_shared_kinds 3 stroke_10_20))).
    cbn. intuition discriminate.
Defined.

End CanvasExtras.


(** * More about the correlation core and the tool handler *)

Module BridgeExtras.
Import Bridge Correlation Mcp BridgeFacts.

Local Open Scope string_scope.
Local Open Scope Z_scope.

(** ** What is sent, and when *)

Lemma fire_sent due : forall s, sent (trace (fire due s)) = sent (trace s).
Proof.
  induction due as [|tm due IH]; intros s; [reflexivity |].
  rewrite fire_cons, IH. unfold onTimeout.
  destruct (pendingRequests s !! t_id tm); reflexivity.
Qed.

Lemma advance_rest t s :
  rest (advance t s) =
    (canvasClient s, requestId s, clients s, socketCount s, promiseCount s,
     List.filter (fun tm => negb (isDue t tm)) (timers s), t).
Proof. unfold advance. rewrite fire_rest. reflexivity. Qed.

(** Only a submission that finds a renderer writes an envelope or issues
    an id. *)
Lemma step_sends s e :
  (sent (trace (step s e)), requestId (step s e)) =
    match e, canvasClient s with
    | Submit command params, Some ws =>
        ((ws, {| env_id := requestId s + 1; env_command := command;
                 env_params := params |}) :: sent (trace s),
         requestId s + 1)
    | _, _ => (sent (trace s), requestId s)
    end.
Proof.
  destruct e as [|ws data|ws|command params|t]; cbn [step].
  - destruct (canvasClient s); reflexivity.
  - assert (sent (trace (onMessage data s)) = sent (trace s)
            /\ requestId (onMessage data s) = requestId s) as [Hs Hr].
    { destruct (onMessage_cases data s)
        as [-> | [-> | (key & entry & result & _ & ->)]]; split; reflexivity. }
    destruct (decide (ws ∈ clients s)); [rewrite Hs, Hr|]; destruct (canvasClient s); reflexivity.
  - destruct (decide (ws ∈ clients s)); destruct (canvasClient s); reflexivity.
  - unfold sendToCanvas. cbn [newPromise canvasClient].
    destruct (canvasClient s); reflexivity.
  - assert (sent (trace (advance t s)) = sent (trace s)
            /\ requestId (advance t s) = requestId s) as [Hs Hr].
    { split; [unfold advance; rewrite fire_sent; reflexivity |].
      pose proof (advance_rest t s) as Hrest. unfold rest in Hrest.
      injection Hrest as _ Hr _ _ _ _ _. exact Hr. }
    destruct (now s <=? t); [rewrite Hs, Hr|]; destruct (canvasClient s); reflexivity.
Qed.

Lemma idsDown_In n : forall id, In id (idsDown n) <-> 0 < id <= Z.of_nat n.
Proof.
  induction n as [|n IH]; intros id; cbn [idsDown In]; [lia |].
  rewrite IH. lia.
Qed.

Lemma idsDown_NoDup n : NoDup (idsDown n).
Proof.
  induction n as [|n IH]; cbn [idsDown]; [constructor |].
  apply NoDup_cons. split; [|exact IH].
  intros Hin. apply list_elem_of_In, idsDown_In in Hin. lia.
Qed.

Lemma sentIds_run events : forall s,
  Invariant s ->
  sentIds s = idsDown (Z.to_nat (requestId s)) ->
  sentIds (run events s) = idsDown (Z.to_nat (requestId (run events s))).
Proof.
  induction events as [|e events IH]; intros s Hinv Hs; [exact Hs |].
  cbn [run fold_left]. apply IH; [apply invariant_step, Hinv |].
  pose proof (step_sends s e) as Hstep. unfold sentIds in *.
  pose proof (counter_nonneg _ _ _ _ _ (inv_consistent s Hinv)) as Hpos.
  pose proof (f_equal fst Hstep) as Hsent. pose proof (f_equal snd Hstep) as Hid.
  clear Hstep. cbn [fst snd] in Hsent, Hid.
  destruct e as [| | |command params|]; try destruct (canvasClient s);
    cbn [fst snd] in Hsent, Hid; rewrite Hsent, Hid; try exact Hs.
  cbn [map snd env_id]. rewrite Hs.
  replace (Z.to_nat (requestId s + 1)) with (S (Z.to_nat (requestId s))) by lia.
  cbn [idsDown]. f_equal. lia.
Qed.

(** X8.  The envelopes written to the renderers carry the ids
    [requestId, ..., 2, 1], newest first: ids are issued in increasing order
    starting at 1, each is sent exactly once, and none is skipped or used
    again — failed submissions, replies, timeouts and reconnections do not
    disturb the sequence. *)
Theorem ids_are_sent_once_in_order (events : list Event) :
  let s := run events initial in
  sentIds s = idsDown (Z.to_nat (requestId s)) /\
  NoDup (sentIds s) /\
  (forall id, In id (sentIds s) <-> 0 < id <= requestId s).
Proof.
  cbv zeta.
  assert (Hs : sentIds (run events initial)
               = idsDown (Z.to_nat (requestId (run events initial))))
    by (apply sentIds_run; [apply invariant_initial | reflexivity]).
  pose proof (counter_nonneg _ _ _ _ _ (inv_consistent _ (invariant_reachable events))).
  rewrite Hs. split; [reflexivity |]. split; [apply idsDown_NoDup |].
  intros id. rewrite idsDown_In. lia.
Qed.

Lemma ids_are_sent_once_in_order_witness :
  sentIds (run [Submit "undo" JNull; Connection; Submit "clear" JNull; Close 0%nat;
                Submit "redo" JNull; Connection; Submit "undo" JNull] initial)
    = [2; 1].
Proof.
  refine (eq_trans
            (proj1 (ids_are_sent_once_in_order
                      [Submit "undo" JNull; Connection; Submit "clear" JNull;
                       Close 0%nat; Submit "redo" JNull; Connection;
                       Submit "undo" JNull])) _).
  vm_compute. reflexivity.
Defined.

(** X9.  A new connection takes the slot whatever it held (last writer
    wins): its socket is a fresh one, the sockets that were open stay open —
    the one it replaces is not closed — and the next submission goes to the new
    socket, with the next id. *)
Theorem newest_connection_takes_the_slot
    (events : list Event) (command : string) (params : JsValue) :
  let s := run events initial in
  let ws := socketCount s in
  let s' := step s Connection in
  canvasClient s' = Some ws /\
  (ws ∉ clients s) /\
  (forall old, old ∈ clients s -> old ∈ clients s') /\
  ws ∈ clients s' /\
  pendingRequests s' = pendingRequests s /\
  sent (trace (step s' (Submit command params))) =
    (ws, {| env_id := requestId s + 1; env_command := command; env_params := params |})
      :: sent (trace s).
Proof.
  cbv zeta. pose proof (invariant_reachable events) as Hinv.
  set (s := run events initial) in *.
  split; [reflexivity |]. split.
  { intros Hin. apply (inv_sockets s Hinv) in Hin. lia. }
  split; [intros old Hold; cbn; apply elem_of_union; right; exact Hold |].
  split; [cbn; apply elem_of_union; left; apply elem_of_singleton; reflexivity |].
  split; [reflexivity |].
  pose proof (f_equal fst (step_sends (step s Connection) (Submit command params)))
    as Hsent.
  exact Hsent.
Qed.

(** ** Disconnecting *)

(** X10.  When a socket closes, the requests in flight are not rejected:
    the table, the timers and every promise are as before the close.  Such a
    request stays pending until its own deadline and is rejected with the
    timeout error when the clock reaches it. *)
Theorem disconnect_leaves_requests_to_their_timeout
    (events : list Event) (ws : Socket) :
  let s := run events initial in
  let s' := step s (Close ws) in
  pendingRequests s' = pendingRequests s /\
  timers s' = timers s /\
  (forall p, promiseState p (trace s') = promiseState p (trace s)) /\
  (forall tm e, In tm (timers s) -> pendingRequests s !! t_id tm = Some e ->
     (forall t, t < t_due tm ->
        promiseState (promise e) (trace (step s' (Tick t))) = Unsettled) /\
     promiseState (promise e) (trace (step s' (Tick (t_due tm)))) = Rejected timedOut).
Proof.
  cbv zeta. pose proof (invariant_reachable events) as Hinv.
  set (s := run events initial) in *.
  pose proof (invariant_step s (Close ws) Hinv) as Hinv'.
  assert (Hsame : pendingRequests (step s (Close ws)) = pendingRequests s
                  /\ timers (step s (Close ws)) = timers s
                  /\ forall p, promiseState p (trace (step s (Close ws)))
                               = promiseState p (trace s)).
  { cbn [step]. destruct (decide (ws ∈ clients s)); [|auto].
    split; [reflexivity |]. split; [reflexivity |].
    intros p. cbn. destruct (promiseState p (trace s)); reflexivity. }
  destruct Hsame as (Hp & Ht & Hst).
  split; [exact Hp |]. split; [exact Ht |]. split; [exact Hst |].
  intros tm e Hin He. rewrite <- Ht in Hin. rewrite <- Hp in He. split.
  - intros t Hearly.
    apply (before_deadline_pending _ Hinv' tm e t Hin He Hearly).
  - apply (deadline_rejects _ Hinv' tm e (t_due tm) Hin He). lia.
Qed.

Lemma disconnect_leaves_requests_to_their_timeout_witness :
  let s := run [Connection; Submit "clear" JNull; Tick 400] initial in
  let s' := step s (Close 0%nat) in
  promiseState 0%nat (trace s') = Unsettled /\
  promiseState 0%nat (trace (step s' (Tick 9999))) = Unsettled /\
  promiseState 0%nat (trace (step s' (Tick 10000))) = Rejected timedOut.
Proof.
  pose proof (disconnect_leaves_requests_to_their_timeout
                [Connection; Submit "clear" JNull; Tick 400] 0%nat) as H.
  cbv zeta in H. destruct H as (_ & _ & Hstate & Hlater).
  split; [rewrite Hstate; vm_compute; reflexivity |].
  assert (Hin : In {| t_due := 10000; t_id := 1; t_promise := 0%nat |}
                  (timers (run [Connection; Submit "clear" JNull; Tick 400] initial)))
    by (vm_compute; left; reflexivity).
  assert (He : pendingRequests (run [Connection; Submit "clear" JNull; Tick 400] initial)
               !! 1 = Some {| promise := 0%nat |})
    by (vm_compute; reflexivity).
  destruct (Hlater _ _ Hin He) as [Hbefore Hat].
  split; [apply Hbefore; reflexivity | exact Hat].
Defined.

(** ** What a message can do *)

Lemma rejected_before p eff effects message :
  (forall q m, eff <> Reject q m) ->
  promiseState p (eff :: effects) = Rejected message ->
  promiseState p effects = Rejected message.
Proof.
  intros Hno. cbn. destruct (promiseState p effects); [|discriminate | trivial].
  destruct eff as [q v|q m| |]; cbn; try discriminate.
  - destruct (Nat.eqb p q); discriminate.
  - exfalso. apply (Hno q m). reflexivity.
Qed.

(** X11.  Whatever arrives on a socket, handling it never writes to a
    renderer, never issues an id, never arms or disarms a timer, never touches
    the slot, never adds an entry to the table and never rejects a promise: it
    takes at most one entry out of the table, and that only when it resolves
    it. *)
Theorem a_message_only_ever_resolves
    (s : State) (ws : Socket) (data : option JsValue) :
  let s' := step s (Message ws data) in
  sent (trace s') = sent (trace s) /\
  requestId s' = requestId s /\
  timers s' = timers s /\
  canvasClient s' = canvasClient s /\
  clients s' = clients s /\
  (forall id e, pendingRequests s' !! id = Some e -> pendingRequests s !! id = Some e) /\
  (forall p message,
     promiseState p (trace s') = Rejected message ->
     promiseState p (trace s) = Rejected message) /\
  (pendingRequests s' = pendingRequests s \/
   exists id e result,
     pendingRequests s !! id = Some e /\
     pendingRequests s' = delete id (pendingRequests s) /\
     trace s' = Resolve (promise e) result :: trace s).
Proof.
  cbv zeta. cbn [step]. destruct (decide (ws ∈ clients s)) as [_|_].
  2: { repeat (split; [solve [auto] |]). left. reflexivity. }
  destruct (onMessage_cases data s) as [-> | [-> | (key & entry & result & He & ->)]].
  - repeat (split; [solve [auto] |]). left. reflexivity.
  - cbn [trace pendingRequests requestId timers canvasClient clients emit setPending sent].
    repeat (split; [solve [auto] |]). split; [|left; reflexivity].
    intros p message. apply rejected_before. discriminate.
  - cbn [trace pendingRequests requestId timers canvasClient clients emit setPending sent].
    repeat (split; [reflexivity |]). split; [|split].
    + intros id e Hid. apply lookup_delete_Some in Hid as [_ Hid]. exact Hid.
    + intros p message. apply rejected_before. discriminate.
    + right. exists key, entry, result. auto.
Qed.

(** ** Replies reach the caller that asked *)

Lemma unsettled_count p effects :
  promiseState p effects = Unsettled -> settlements p effects = 0%nat.
Proof.
  induction effects as [|eff earlier IH]; [reflexivity |].
  cbn. destruct (promiseState p earlier); try discriminate.
  intros Heff. rewrite Heff. apply IH. reflexivity.
Qed.

(** An entry of the table either was there before the step or was made by
    it, under the next id and for the next promise. *)
Lemma step_entry_origin s e id x :
  pendingRequests (step s e) !! id = Some x ->
  pendingRequests s !! id = Some x \/
  (id = requestId s + 1 /\ promise x = promiseCount s).
Proof.
  destruct e as [|ws data|ws|command params|t]; cbn [step].
  - auto.
  - destruct (decide (ws ∈ clients s)); [|auto].
    destruct (onMessage_cases data s) as [-> | [-> | (key & entry & result & _ & ->)]];
      [auto | auto |].
    cbn. intros Hx. apply lookup_delete_Some in Hx as [_ Hx]. auto.
  - destruct (decide (ws ∈ clients s)); auto.
  - unfold sendToCanvas. cbn [newPromise canvasClient].
    destruct (canvasClient s); cbn; [|auto].
    intros Hx. apply lookup_insert_Some in Hx as [[<- <-]|[_ Hx]]; auto.
  - destruct (now s <=? t); [|auto]. unfold advance. rewrite fire_pending.
    destruct (existsb _ _); [discriminate | auto].
Qed.

Lemma step_counters s e :
  requestId s <= requestId (step s e) /\
  (promiseCount s <= promiseCount (step s e))%nat.
Proof.
  split.
  - pose proof (f_equal snd (step_sends s e)) as Hid. cbn [snd] in Hid.
    destruct e; try destruct (canvasClient s); cbn [snd] in Hid; rewrite Hid; lia.
  - destruct e as [|ws data|ws|command params|t]; cbn [step].
    + cbn. lia.
    + destruct (decide (ws ∈ clients s)); [|lia].
      destruct (onMessage_cases data s) as [-> | [-> | (key & entry & result & _ & ->)]];
        cbn; lia.
    + destruct (decide (ws ∈ clients s)); cbn; lia.
    + unfold sendToCanvas. cbn [newPromise canvasClient].
      destruct (canvasClient s); cbn; lia.
    + destruct (now s <=? t); [|lia].
      pose proof (advance_rest t s) as Hrest. unfold rest in Hrest.
      injection Hrest as _ _ _ _ Hpc _ _. rewrite Hpc. lia.
Qed.

Lemma run_counters later : forall s,
  requestId s <= requestId (run later s) /\
  (promiseCount s <= promiseCount (run later s))%nat.
Proof.
  induction later as [|e later IH]; intros s; [cbn; lia |].
  cbn [run fold_left]. destruct (step_counters s e). specialize (IH (step s e)).
  unfold run in IH. lia.
Qed.

(** What was sent stays sent. *)
Lemma run_keeps_sent later : forall s x,
  In x (sent (trace s)) -> In x (sent (trace (run later s))).
Proof.
  induction later as [|e later IH]; intros s x Hin; [exact Hin |].
  cbn [run fold_left]. apply IH.
  pose proof (f_equal fst (step_sends s e)) as Hs. cbn [fst] in Hs.
  destruct e; try destruct (canvasClient s); cbn [fst] in Hs; rewrite Hs;
    try exact Hin.
  right. exact Hin.
Qed.

Lemma run_entry_origin later : forall s id x,
  pendingRequests (run later s) !! id = Some x ->
  pendingRequests s !! id = Some x \/
  (requestId s < id /\ (promiseCount s <= promise x)%nat).
Proof.
  induction later as [|e later IH]; intros s id x Hx; [left; exact Hx |].
  cbn [run fold_left] in Hx. destruct (step_counters s e) as [Hr Hp].
  destruct (IH _ _ _ Hx) as [Hstep | [Hid Hpx]]; [|right; lia].
  destruct (step_entry_origin s e id x Hstep) as [Hold | [-> ->]]; [left; exact Hold |].
  right. lia.
Qed.

(** X12.  The promise a submission returns stays unsettled exactly as long
    as the entry made for it is in the table, under the id that was sent and
    for that very promise — whatever else is submitted, answered, timed out,
    connected or closed in between.  A reply bearing that id, from any open
    socket, then fulfils this caller's promise with the reply's payload. *)
Theorem a_reply_reaches_the_caller_that_asked
    (events later : list Event) (ws : Socket) (command : string) (params : JsValue) :
  let s := run events initial in
  canvasClient s = Some ws ->
  let p := fst (sendToCanvas command params s) in
  let id := requestId s + 1 in
  let s' := run later (step s (Submit command params)) in
  In (ws, {| env_id := id; env_command := command; env_params := params |})
     (sent (trace s')) /\
  (promiseState p (trace s') = Unsettled <->
   pendingRequests s' !! id = Some {| promise := p |}) /\
  (forall socket payload,
     socket ∈ clients s' ->
     promiseState p (trace s') = Unsettled ->
     promiseState p
       (trace (step s' (Message socket (Some (reply (JNumber id) payload)))))
       = Fulfilled payload).
Proof.
  cbv zeta. intros Hslot.
  pose proof (invariant_reachable events) as Hinv.
  set (s := run events initial) in *.
  set (s1 := step s (Submit command params)).
  pose proof (invariant_step s (Submit command params) Hinv) as Hinv1. fold s1 in Hinv1.
  pose proof (invariant_run later s1 Hinv1) as Hinv2.
  assert (Hp : fst (sendToCanvas command params s) = promiseCount s)
    by (unfold sendToCanvas; cbn [newPromise canvasClient]; rewrite Hslot; reflexivity).
  rewrite Hp.
  assert (H1 : pendingRequests s1 !! (requestId s + 1) = Some {| promise := promiseCount s |}
               /\ promiseCount s1 = S (promiseCount s)
               /\ In (ws, {| env_id := requestId s + 1; env_command := command;
                             env_params := params |}) (sent (trace s1))).
  { unfold s1. cbn [step]. unfold sendToCanvas. cbn [newPromise canvasClient].
    rewrite Hslot. cbn. split; [apply lookup_insert_eq |].
    split; [reflexivity | left; reflexivity]. }
  destruct H1 as (Hentry1 & Hcount1 & Hsent1).
  assert (Hiff : promiseState (promiseCount s) (trace (run later s1)) = Unsettled <->
                 pendingRequests (run later s1) !! (requestId s + 1)
                   = Some {| promise := promiseCount s |}).
  { destruct Hinv2 as [HC2 _ _ _ _ _]. split.
    - intros Hun. apply unsettled_count in Hun.
      destruct (unsettled_pending _ _ _ _ _ HC2 (promiseCount s)) as (id' & x & Hx & Hpx);
        [| exact Hun |].
      { destruct (run_counters later s1) as [_ Hle]. lia. }
      destruct (run_entry_origin later s1 id' x Hx) as [Hold | [_ Hnew]]; [|lia].
      destruct Hinv1 as [HC1 _ _ _ _ _].
      assert (id' = requestId s + 1) as ->
        by (apply (entries_distinct _ _ _ _ _ HC1 _ _ _ _ Hold Hentry1); exact Hpx).
      rewrite Hx. destruct x as [px]. cbn in Hpx. rewrite Hpx. reflexivity.
    - intros He. apply unsettled_state.
      apply (entry_unsettled _ _ _ _ _ HC2 _ _ He). }
  split; [apply run_keeps_sent, Hsent1 |].
  split; [exact Hiff |].
  intros socket payload Hopen Hun. apply Hiff in Hun.
  destruct (reply_resolves _ Hinv2 socket _ _ payload Hopen Hun) as (_ & _ & Hf & _).
  exact Hf.
Qed.

Lemma a_reply_reaches_the_caller_that_asked_witness :
  let s := run [Connection; Submit "undo" JNull] initial in
  let s' :=
    run [Connection; Submit "redo" JNull; Close 0%nat; Tick 9000]
        (step s (Submit "get_shapes" (JObject []))) in
  In (0%nat, {| env_id := 2; env_command := "get_shapes"; env_params := JObject [] |})
     (sent (trace s')) /\
  (promiseState 1%nat (trace s') = Unsettled <->
   pendingRequests s' !! 2 = Some {| promise := 1%nat |}) /\
  (forall socket payload,
     socket ∈ clients s' ->
     promiseState 1%nat (trace s') = Unsettled ->
     promiseState 1%nat
       (trace (step s' (Message socket (Some (reply (JNumber 2) payload)))))
       = Fulfilled payload).
Proof.
  refine (a_reply_reaches_the_caller_that_asked
            [Connection; Submit "undo" JNull]
            [Connection; Submit "redo" JNull; Close 0%nat; Tick 9000]
            0%nat "get_shapes" (JObject []) _).
  vm_compute. reflexivity.
Defined.

(** ** The tool handler *)

Lemma unknown_tool name args : ~ In name toolNames -> toolCommand name args = None.
Proof.
  intros Hout. unfold toolCommand.
  CanvasFacts.switch_on_kind ltac:(exfalso; apply Hout; simpl; intuition congruence).
  reflexivity.
Qed.

Lemma known_tool name args :
  In name toolNames ->
  exists command,
    toolCommand name args =
      Some (command,
            if String.eqb name "canvas_create_shape" || String.eqb name "canvas_create_shapes"
            then args else JObject []) /\
    In command Renderer.commands.
Proof.
  intros Hin. simpl in Hin.
  destruct Hin as [<-|[<-|[<-|[<-|[<-|[<-|[<-|[<-|[]]]]]]]]];
    eexists; (split; [reflexivity | cbn; tauto]).
Qed.

(** X13.  The tools the server lists are exactly the names its call handler
    has a case for.  Each is turned into a command the renderer's
    [handleCommand] has a case for, so the renderer never answers it with
    "Unknown command"; the two shape tools forward the caller's arguments as
    they are, the other six send an empty object whatever the caller
    passed. *)
Theorem listed_tools_reach_handled_commands (name : string) (args : JsValue) :
  (is_Some (toolCommand name args) <-> In name toolNames) /\
  (forall command params,
     toolCommand name args = Some (command, params) ->
     params =
       (if String.eqb name "canvas_create_shape" || String.eqb name "canvas_create_shapes"
        then args else JObject []) /\
     In command Renderer.commands /\
     forall editor c error,
       Canvas.cmd_command c = command ->
       snd (Canvas.handleCommand editor c) <> Returned (Canvas.CommandError error)).
Proof.
  split.
  - split.
    + intros [x Hx]. destruct (in_dec String.string_dec name toolNames) as [Hin|Hout];
        [exact Hin |]. rewrite (unknown_tool _ _ Hout) in Hx. discriminate.
    + intros Hin. destruct (known_tool name args Hin) as (command & -> & _). eauto.
  - intros command params Hrun.
    destruct (in_dec String.string_dec name toolNames) as [Hin|Hout];
      [|rewrite (unknown_tool _ _ Hout) in Hrun; discriminate].
    destruct (known_tool name args Hin) as (command' & Hrun' & Hcmd).
    rewrite Hrun' in Hrun. injection Hrun as <- <-.
    split; [reflexivity |]. split; [exact Hcmd |].
    intros editor c error Hc. apply CanvasExtras.handled_command. rewrite Hc. exact Hcmd.
Qed.

Lemma listed_tools_reach_handled_commands_witness :
  toolCommand "canvas_clear" (JObject [("all", JBool true)]) = Some ("clear", JObject []) /\
  forall editor id params error,
    snd (Canvas.handleCommand editor
           {| Canvas.cmd_id := id; Canvas.cmd_command := "clear";
              Canvas.cmd_params := params |})
      <> Returned (Canvas.CommandError error).
Proof.
  split; [reflexivity |].
  intros editor id params error.
  exact (proj2 (proj2 (proj2 (listed_tools_reach_handled_commands
           "canvas_clear" (JObject [("all", JBool true)])) "clear" (JObject []) eq_refl))
           editor
           {| Canvas.cmd_id := id; Canvas.cmd_command := "clear";
              Canvas.cmd_params := params |}
           error eq_refl).
Defined.

(** X14.  A call of a tool the handler has no case for is answered with
    "Error: Unknown tool: " and the name, flagged as an error, and does not
    reach the bridge: no promise, no id, no envelope.  Of the calls that do
    reach it, the ones answered as errors are those whose promise was rejected,
    and their text is "Error: " followed by the timeout or the not-connected
    message; a fulfilled promise is never answered as an error, even when the
    renderer's payload reports one. *)
Theorem tool_errors_are_unknown_timeout_or_unavailable
    (stringify : JsValue -> JsValue) (events : list Event)
    (name : string) (args : JsValue) :
  let s := run events initial in
  (~ In name toolNames ->
   callTool name args s =
     (inr {| tr_text := JString ("Error: Unknown tool: " ++ name); tr_isError := true |},
      s)) /\
  (forall p answer,
     toolAnswer stringify (promiseState p (trace s)) = Some answer ->
     tr_isError answer = true ->
     tr_text answer = JString ("Error: " ++ timedOut) \/
     tr_text answer = JString ("Error: " ++ notConnected)) /\
  (forall p payload,
     promiseState p (trace s) = Fulfilled payload ->
     exists answer,
       toolAnswer stringify (promiseState p (trace s)) = Some answer /\
       tr_isError answer = false).
Proof.
  cbv zeta. split; [|split].
  - intros Hout. unfold callTool. rewrite (unknown_tool _ _ Hout). reflexivity.
  - intros p answer Hanswer Herr.
    destruct (promiseState p (trace (run events initial))) as [|payload|message] eqn:Hst;
      cbn in Hanswer; try discriminate.
    + injection Hanswer as <-. discriminate Herr.
    + injection Hanswer as <-. cbn.
      destruct (invariant_reachable events) as [HC _ _ _ _ _].
      destruct (rejections _ _ _ _ _ HC p message (rejected_in_trace _ _ _ Hst)) as [-> | ->];
        auto.
  - intros p payload ->. cbn. eauto.
Qed.

Lemma tool_errors_are_unknown_timeout_or_unavailable_witness :
  callTool "canvas_select_all" JNull (run [Connection] initial) =
    (inr {| tr_text := JString "Error: Unknown tool: canvas_select_all";
            tr_isError := true |},
     run [Connection] initial).
Proof.
  refine (proj1 (tool_errors_are_unknown_timeout_or_unavailable
                   (fun v => v) [Connection] "canvas_select_all" JNull) _).
  cbn. intuition discriminate.
Defined.

End BridgeExtras.


(** * The executor on the data as it arrives: what is answered, and when *)

Module WireFacts.
Import Canvas Wire CanvasFacts.

Local Open Scope string_scope.

(** ** One descriptor *)

Lemma isPathKind_true kind :
  isPathKind kind = true <-> kind = "draw" \/ kind = "freehand".
Proof.
  unfold isPathKind. rewrite orb_true_iff, !String.eqb_eq. reflexivity.
Qed.

Lemma path_kind_known kind : isPathKind kind = true -> In kind kind_enum.
Proof. intros H. apply isPathKind_true in H as [-> | ->]; cbn; tauto. Qed.

Lemma readable_typed params :
  readable params -> readPath params = Returned (p_points (typed params), p_segments (typed params)).
Proof.
  intros [path Hpath]. unfold typed. rewrite Hpath. destruct path. reflexivity.
Qed.

Lemma shapePartial_typed shapeId params :
  readable params ->
  shapePartial shapeId params = Returned (Canvas.shapePartial shapeId (typed params)).
Proof.
  intros [path Hpath]. unfold shapePartial, typed. rewrite Hpath. reflexivity.
Qed.

Lemma shapePartial_unreadable shapeId params :
  ~ readable params -> exists e, shapePartial shapeId params = Thrown e.
Proof.
  intros Hno. unfold shapePartial. destruct (readPath params) as [path|e] eqn:Hpath.
  - exfalso. apply Hno. exists path. exact Hpath.
  - eauto.
Qed.

Lemma refused_readable params : refused params -> readable params.
Proof.
  unfold refused, readable, readPath. intros [Hout | (Hk & -> & ->)].
  - destruct (isPathKind (w_kind params)) eqn:Hk; [|eauto].
    exfalso. apply Hout, path_kind_known, Hk.
  - rewrite Hk. eauto.
Qed.

(** Once the path data is read, the typed descriptor is valid exactly when
    the one that arrived is not refused. *)
Lemma valid_typed params :
  readable params -> (valid (typed params) <-> ~ refused params).
Proof.
  intros [path Hpath]. unfold typed. rewrite Hpath.
  unfold valid, refused. cbn [withPath p_kind p_points p_segments].
  unfold readPath in Hpath. split.
  - intros [Hin Hdata] [Hout | (Hk & Hs & Hp)]; [contradiction |].
    rewrite Hk, Hs, Hp in Hpath. injection Hpath as <-.
    destruct (Hdata (proj1 (isPathKind_true _) Hk)) as [H|H]; apply H; reflexivity.
  - intros Hok. assert (Hin : In (w_kind params) kind_enum).
    { destruct (in_dec String.string_dec (w_kind params) kind_enum) as [H|H];
        [exact H | exfalso; apply Hok; left; exact H]. }
    split; [exact Hin |]. intros Hk. apply isPathKind_true in Hk. rewrite Hk in Hpath.
    destruct (w_segments params) as [| |segs] eqn:Hs; try discriminate.
    + destruct (w_points params) as [| |ps] eqn:Hp; try discriminate.
      * exfalso. apply Hok. right. auto.
      * destruct (readAll readPoint ps); [|discriminate].
        injection Hpath as <-. left. discriminate.
    + destruct (readAll readSegment segs); [|discriminate].
      injection Hpath as <-. right. discriminate.
Qed.

Section OneDescriptor.
Variable accepts : Editor -> Shape -> bool.
Variable editor : Editor.

(** The four ways [createShape] can end. *)
Lemma createShape_cases (params : option WireParams) :
  let editor1 := snd (createShapeId editor) in
  (params = None /\
   createShape accepts editor params = (editor1, Thrown TypeError)) \/
  (exists d e, params = Some d /\ ~ readable d /\
     createShape accepts editor params = (editor1, Thrown e)) \/
  (exists d error, params = Some d /\ refused d /\
     ((error = "Unknown shape kind: " ++ w_kind d /\ ~ In (w_kind d) kind_enum) \/
      (error = "Draw shape requires points or segments" /\
       isPathKind (w_kind d) = true /\
       w_segments d = Falsy /\ w_points d = Falsy)) /\
     shapePartial (idSeed editor) d = Returned (inr error) /\
     createShape accepts editor params = (editor1, Returned (CreateError error))) \/
  (exists d shape, params = Some d /\ normalises d /\
     shapePartial (idSeed editor) d = Returned (inl shape) /\
     s_id shape = idSeed editor /\
     createShape accepts editor params =
       if accepts editor1 shape
       then (editor_createShape editor1 shape, Returned (Created (idSeed editor)))
       else (editor1, Thrown ValidationError)).
Proof.
  cbv zeta. unfold createShape. cbn [createShapeId snd].
  destruct params as [d|]; [|left; auto]. right.
  destruct (readPath d) as [path|e] eqn:Hpath.
  2: { left. exists d, e. split; [reflexivity |]. split.
       - intros [path Hp]. congruence.
       - unfold shapePartial. rewrite Hpath. reflexivity. }
  right. assert (Hread : readable d) by (exists path; exact Hpath).
  rewrite (shapePartial_typed _ _ Hread).
  destruct (CanvasExtras.shapePartial_cases (idSeed editor) (typed d))
    as [(Hv & shape & Hsh & Hid) | [(Hout & Herr) | (Hk & Hp & Hs & Herr)]].
  - right. exists d, shape. rewrite Hsh.
    split; [reflexivity |]. split; [split; [exact Hread | apply valid_typed; assumption] |].
    split; [rewrite (shapePartial_typed _ _ Hread), Hsh; reflexivity |].
    split; [exact Hid | reflexivity].
  - left. rewrite Herr. assert (Hkind : p_kind (typed d) = w_kind d)
      by (unfold typed; destruct (readPath d); reflexivity).
    rewrite Hkind in *. exists d, ("Unknown shape kind: " ++ w_kind d).
    split; [reflexivity |]. split; [left; exact Hout |].
    split; [left; split; [reflexivity | exact Hout] |].
    split; [rewrite (shapePartial_typed _ _ Hread), Herr; reflexivity | reflexivity].
  - left. rewrite Herr. assert (Hnv : ~ valid (typed d)).
    { intros [_ Hdata]. destruct (Hdata Hk); congruence. }
    assert (Href : refused d).
    { destruct (in_dec String.string_dec (w_kind d) kind_enum) as [Hin|Hout];
        [|left; exact Hout].
      unfold refused.
      destruct (isPathKind (w_kind d)) eqn:Hpk;
        destruct (w_segments d) as [| |segs] eqn:Hsegs;
        destruct (w_points d) as [| |ps] eqn:Hps;
        try (right; auto; fail);
        exfalso; apply Hnv; apply valid_typed; try exact Hread;
        unfold refused; rewrite ?Hpk, ?Hsegs, ?Hps;
        intros [Ho | (H1 & H2 & H3)]; try contradiction; discriminate. }
    exists d, "Draw shape requires points or segments".
    split; [reflexivity |]. split; [exact Href |].
    split; [|split; [rewrite (shapePartial_typed _ _ Hread), Herr; reflexivity | reflexivity]].
    destruct Href as [Hout | (Hpk & Hsegs & Hps)]; [|right; auto].
    exfalso. apply Hout. assert (Hkind : p_kind (typed d) = w_kind d)
      by (unfold typed; destruct (readPath d); reflexivity).
    rewrite <- Hkind. destruct Hk as [-> | ->]; cbn; tauto.
Qed.


End OneDescriptor.


(** ** Batches *)

Section Batches.
Variable accepts : Editor -> Shape -> bool.

Lemma createEach_step editor shape rest :
  createEach accepts editor (shape :: rest) =
    match createShape accepts editor shape with
    | (editor, Thrown e) => (editor, Thrown e)
    | (editor, Returned r) =>
        match createEach accepts editor rest with
        | (editor, Thrown e) => (editor, Thrown e)
        | (editor, Returned rs) => (editor, Returned (r :: rs))
        end
    end.
Proof. reflexivity. Qed.




End Batches.



(** ** Batches, single commands and the page *)

Section Answers.
Variable accepts : Editor -> Shape -> bool.

Lemma create_shape_command editor id shape :
  handleCommand accepts editor (createShapeCommand id shape) =
    match createShape accepts editor shape with
    | (editor, Thrown e) => (editor, Thrown e)
    | (editor, Returned r) => (editor, Returned (ShapeResult r))
    end.
Proof.
  unfold handleCommand, createShapeCommand. cbn -[createShape].
  destruct shape; reflexivity.
Qed.

Lemma create_shapes_command editor id own shapes :
  handleCommand accepts editor (createShapesCommand id own shapes) =
    match createEach accepts editor shapes with
    | (editor, Thrown e) => (editor, Thrown e)
    | (editor, Returned results) => (editor, Returned (BatchResult (length shapes) results))
    end.
Proof. reflexivity. Qed.

Lemma createEach_oneByOne id shapes : forall editor editor' results,
  createEach accepts editor shapes = (editor', Returned results) ->
  length results = length shapes /\
  oneByOne accepts id editor shapes =
    (editor', map (fun r => Returned (ShapeResult r)) results).
Proof.
  induction shapes as [|shape rest IH]; intros editor editor' results Hrun.
  - injection Hrun as <- <-. split; reflexivity.
  - rewrite createEach_step in Hrun. cbn [oneByOne]. rewrite create_shape_command.
    destruct (createShape accepts editor shape) as [e1 [r|x]]; [|discriminate].
    destruct (createEach accepts e1 rest) as [e2 [rs|x]] eqn:Hrest; [|discriminate].
    injection Hrun as <- <-. destruct (IH _ _ _ Hrest) as [Hlen ->].
    split; [cbn; rewrite Hlen; reflexivity | reflexivity].
Qed.

(** X5.  When a [create_shapes] batch is answered, it has done to the
    editor what sending its descriptors as [create_shape] commands one after
    the other does, and its N result entries are the results of those
    commands, in order.  (A batch in which a shape throws is not answered and
    stops there; sent one by one, the later shapes would still be tried.) *)
Theorem answered_batch_equals_one_by_one
    (editor editor' : Editor) (id id' : Z) (own : WireParams)
    (shapes : list (option WireParams)) (result : CommandResult) :
  handleCommand accepts editor (createShapesCommand id own shapes)
    = (editor', Returned result) ->
  exists results,
    result = BatchResult (length shapes) results /\
    length results = length shapes /\
    oneByOne accepts id' editor shapes =
      (editor', map (fun r => Returned (ShapeResult r)) results).
Proof.
  rewrite create_shapes_command.
  destruct (createEach accepts editor shapes) as [e [results|x]] eqn:Hrun; [|discriminate].
  intros [= <- <-]. exists results.
  destruct (createEach_oneByOne id' shapes _ _ _ Hrun) as [Hlen Hone]. auto.
Qed.

Lemma createShape_page editor params :
  match snd (createShape accepts editor params) with
  | Returned (Created _) =>
      exists shape,
        pageShapes (fst (createShape accepts editor params))
          = (pageShapes editor ++ [shape])%list
  | _ => pageShapes (fst (createShape accepts editor params)) = pageShapes editor
  end.
Proof.
  unfold createShape. cbn [createShapeId]. destruct params as [d|]; [|reflexivity].
  destruct (shapePartial (idSeed editor) d) as [[shape|error]|e]; try reflexivity.
  destruct (accepts _ shape); cbn; eauto.
Qed.

Lemma createEach_page shapes : forall editor,
  exists added,
    pageShapes (fst (createEach accepts editor shapes)) = (pageShapes editor ++ added)%list /\
    forall results, snd (createEach accepts editor shapes) = Returned results ->
      length added = successes results.
Proof.
  induction shapes as [|shape rest IH]; intros editor.
  - exists []. cbn. rewrite app_nil_r. split; [reflexivity |]. intros results [= <-]. reflexivity.
  - rewrite createEach_step. pose proof (createShape_page editor shape) as Hone.
    destruct (createShape accepts editor shape) as [e1 [r|x]]; cbn [fst snd] in Hone.
    + destruct (IH e1) as (added & Hpage & Hcount).
      destruct (createEach accepts e1 rest) as [e2 [rs|x]]; cbn [fst snd] in *.
      * destruct r as [shapeId|error].
        -- destruct Hone as [sh Hone]. exists (sh :: added).
           rewrite Hpage, Hone, <- app_assoc. split; [reflexivity |].
           intros results [= <-]. unfold successes in *. cbn.
           rewrite (Hcount rs eq_refl). reflexivity.
        -- exists added. rewrite Hpage, Hone. split; [reflexivity |].
           intros results [= <-]. unfold successes in *. cbn. apply (Hcount rs eq_refl).
      * destruct r as [shapeId|error].
        -- destruct Hone as [sh Hone]. exists (sh :: added).
           rewrite Hpage, Hone, <- app_assoc. split; [reflexivity | discriminate].
        -- exists added. rewrite Hpage, Hone. split; [reflexivity | discriminate].
    + exists []. cbn [fst snd]. rewrite Hone, app_nil_r. split; [reflexivity | discriminate].
Qed.

Lemma createEach_all_refused shapes : forall editor,
  (forall s, In s shapes -> exists d, s = Some d /\ refused d) ->
  exists results,
    snd (createEach accepts editor shapes) = Returned results /\
    length results = length shapes /\
    successes results = 0.
Proof.
  induction shapes as [|shape rest IH]; intros editor Hall.
  - exists []. auto.
  - rewrite createEach_step.
    destruct (Hall shape (or_introl eq_refl)) as (d & -> & Href).
    destruct (createShape_cases accepts editor (Some d))
      as [([=] & _) | [(d' & e & [= <-] & Hno & _) |
          [(d' & error & [= <-] & _ & _ & _ & ->) |
           (d' & shape & [= <-] & [_ Hok] & _)]]].
    + exfalso. apply Hno, refused_readable, Href.
    + destruct (IH (snd (createShapeId editor))) as (rs & Hrs & Hlen & Hzero);
        [intros s' Hs'; apply Hall; right; exact Hs' |].
      destruct (createEach accepts (snd (createShapeId editor)) rest) as [e2 [rs'|x]];
        cbn [snd] in Hrs; [|discriminate]. injection Hrs as ->.
      exists (CreateError error :: rs). cbn [snd]. split; [reflexivity |].
      split; [cbn; rewrite Hlen; reflexivity | exact Hzero].
    + contradiction.
Qed.

(** X6.  A batch never takes anything off the page: whether it is
    answered or ends in a throw, the page afterwards is the page before
    followed by the shapes it created.  When it is answered, the answer has N
    entries and the page has grown by one shape per success entry.  When every
    descriptor is refused with an error object, the batch is still answered
    with [success: true] and count N, with no success entry and the page as it
    was. *)
Theorem batch_only_appends_to_the_page
    (editor : Editor) (id : Z) (own : WireParams) (shapes : list (option WireParams)) :
  let run := handleCommand accepts editor (createShapesCommand id own shapes) in
  (exists added,
     pageShapes (fst run) = (pageShapes editor ++ added)%list /\
     forall result, snd run = Returned result ->
       exists results,
         result = BatchResult (length shapes) results /\
         length results = length shapes /\
         length added = successes results) /\
  ((forall s, In s shapes -> exists d, s = Some d /\ refused d) ->
   exists results,
     snd run = Returned (BatchResult (length shapes) results) /\
     length results = length shapes /\
     successes results = 0 /\
     pageShapes (fst run) = pageShapes editor).
Proof.
  cbv zeta. rewrite create_shapes_command.
  destruct (createEach_page shapes editor) as (added & Hpage & Hcount).
  split.
  - exists added.
    destruct (createEach accepts editor shapes) as [e [results|x]] eqn:Hrun;
      cbn [fst snd] in *; (split; [exact Hpage |]); [|discriminate].
    intros result [= <-]. exists results. split; [reflexivity |].
    split; [|apply Hcount; reflexivity].
    apply (createEach_oneByOne 0 shapes editor e results Hrun).
  - intros Hall. destruct (createEach_all_refused shapes editor Hall)
      as (results & Hrs & Hlen & Hzero).
    destruct (createEach accepts editor shapes) as [e [results'|x]];
      cbn [fst snd] in *; [|discriminate]. injection Hrs as ->.
    exists results. split; [reflexivity |]. split; [exact Hlen |]. split; [exact Hzero |].
    pose proof (Hcount results eq_refl) as Hadded. rewrite Hzero in Hadded.
    destruct added; [|discriminate]. rewrite Hpage. apply app_nil_r.
Qed.




End Answers.


Lemma batch_only_appends_to_the_page_witness :
  exists results,
    snd (handleCommand positiveSize emptyEditor
           (createShapesCommand 3 noDescriptor
              [Some (ofParams (descriptor "blob" 0%float 0%float));
               Some (ofParams (descriptor "draw" 0%float 0%float))]))
      = Returned (BatchResult 2 results) /\
    length results = 2 /\
    successes results = 0 /\
    pageShapes (fst (handleCommand positiveSize emptyEditor
           (createShapesCommand 3 noDescriptor
              [Some (ofParams (descriptor "blob" 0%float 0%float));
               Some (ofParams (descriptor "draw" 0%float 0%float))])))
      = pageShapes emptyEditor.
Proof.
  apply (proj2 (batch_only_appends_to_the_page positiveSize emptyEditor 3 noDescriptor
           [Some (ofParams (descriptor "blob" 0%float 0%float));
            Some (ofParams (descriptor "draw" 0%float 0%float))])).
  intros s [<-|[<-|[]]]; eexists; (split; [reflexivity |]).
  - left. cbn. intuition discriminate.
  - right. cbn. auto.
Defined.

Lemma answered_batch_equals_one_by_one_witness :
  exists results,
    BatchResult 2 [Created 0; CreateError "Unknown shape kind: blob"]
      = BatchResult 2 results /\
    length results = 2 /\
    oneByOne positiveSize 9 emptyEditor
      [Some (ofParams circle_600_400); Some (ofParams (descriptor "blob" 0%float 0%float))]
      = (fst (handleCommand positiveSize emptyEditor
                (createShapesCommand 1 noDescriptor
                   [Some (ofParams circle_600_400);
                    Some (ofParams (descriptor "blob" 0%float 0%float))])),
         map (fun r => Returned (ShapeResult r)) results).
Proof.
  exact (answered_batch_equals_one_by_one positiveSize emptyEditor _ 1 9 noDescriptor
           [Some (ofParams circle_600_400);
            Some (ofParams (descriptor "blob" 0%float 0%float))]
           _ eq_refl).
Defined.

End WireFacts.
